(** * QTC post-quantum network seeder: a shallow embedding of
      [contrib/seeds/qtc-seeder.py] and the properties of its probe codec,
      handshake prober, peer registry, crawl coordinator and runner.

    Python values are modelled as follows.
    - [bytes] objects are lists of [byte]; [str] objects are [string]s
      (characters are code points below 256).
    - Python integers are [Z]; [len] is [Z.of_nat (length _)].
    - A function that can raise returns a [result]; code that also changes
      the socket or the seeder object threads the state explicitly.
    - [self.known_peers] (a Python [set]) is a [gset string];
      [self.good_peers] (a Python [list] of dicts) is a list of records.
    - The thread pool of [crawl_network] is a transition system whose moves
      are chosen by a scheduler. *)

From Stdlib Require Import ZArith List String Ascii Bool Lia DecimalString DecimalPos.
From Stdlib.Strings Require Import Byte.
From stdpp Require Import base gmap sets list strings.

Local Open Scope Z_scope.

(** ** Exceptions and results *)

(** The exception classes the modelled code can meet.  All of them derive
    from [Exception], so every [except Exception] clause catches them. *)
Inductive exn : Type :=
| ValueError
| IndexError
| StructError
| OverflowError
| OSError
| SocketTimeout.

Inductive result (A : Type) : Type :=
| Ret (a : A)
| Exc (e : exn).
Arguments Ret {A} a.
Arguments Exc {A} e.

Definition result_bind {A B : Type} (r : result A) (k : A -> result B) : result B :=
  match r with
  | Ret a => k a
  | Exc e => Exc e
  end.

(** ** Bytes *)

Abbreviation bytes := (list byte).

(** [a == b] on [bytes] objects. *)
Fixpoint bytes_eqb (a b : bytes) : bool :=
  match a, b with
  | [], [] => true
  | x :: a', y :: b' => Byte.eqb x y && bytes_eqb a' b'
  | _, _ => false
  end.

(** [b[i]] for a non-negative index: [IndexError] out of range. *)
Definition bytes_getitem (b : bytes) (i : nat) : result byte :=
  match b !! i with
  | Some x => Ret x
  | None => Exc IndexError
  end.

(** The byte whose value is [z mod 256]. *)
Definition byte_of_Z (z : Z) : byte :=
  match Byte.of_N (Z.to_N (z mod 256)) with
  | Some b => b
  | None => x00
  end.

Definition Z_of_byte (b : byte) : Z := Z.of_N (Byte.to_N b).

(** [struct.pack('<H', n)]: an unsigned 16-bit integer, low byte first;
    [struct.error] when [n] is not in [0, 65535]. *)
Definition struct_pack_H (n : Z) : result bytes :=
  if (0 <=? n) && (n <=? 65535)
  then Ret [byte_of_Z (Z.land n 255); byte_of_Z (Z.shiftr n 8)]
  else Exc StructError.

(** ** Protocol constants (lines 16-20) *)

Definition QTC_MAGIC_BYTES : bytes := [xf9; xbe; xb4; xd9].
Definition QTC_VERSION : Z := 1.
Definition DEFAULT_PORT : Z := 8333.
Definition PQ_HANDSHAKE_TIMEOUT : Z := 30.

(** ** Probe codec *)

(** [create_pq_handshake] (lines 50-63).  [None] is the default argument
    [server_pk=None]. *)
Definition create_pq_handshake (server_pk : option bytes) : result bytes :=
  let server_pk :=
    match server_pk with
    | None => repeat x00 1568
    | Some pk => pk
    end in
  let msg := [] in
  let msg := msg ++ QTC_MAGIC_BYTES in
  result_bind (struct_pack_H QTC_VERSION) (fun v =>
  let msg := msg ++ v in
  result_bind (struct_pack_H (Z.of_nat (length server_pk))) (fun n =>
  let msg := msg ++ n in
  let msg := msg ++ server_pk in
  let msg := msg ++ repeat x00 32 in
  Ret msg)).

(** The classification of a received buffer, lines 81-88 of
    [test_pq_handshake]: [Ret true] is the branch that returns [True],
    [Ret false] the fall-through to [return False]. *)
Definition response_accepted (response : bytes) : result bool :=
  if 7 <=? Z.of_nat (length response) then
    if bytes_eqb (take 4 response) QTC_MAGIC_BYTES then
      result_bind (bytes_getitem response 6) (fun status =>
      Ret (Byte.eqb status x00))
    else Ret false
  else Ret false.

(** ** Logging *)

Inductive log_level : Type := DEBUG | INFO | ERROR.

Inductive log_event : Type :=
| HandshakeSuccessful (host : string) (port : Z)
| HandshakeFailed (host : string) (port : Z) (e : exn)
| FoundPeers (n : Z)
| ErrorCrawling (peer_addr : string) (e : exn)
| StartingCrawl
| CrawlCompleted (n : Z)
| SavedPeers (n : Z) (file : string)
| Sleeping (interval : Z).

Definition log_entry : Type := log_level * log_event.

(** ** Handshake prober *)

(** What the outside world does to one probe of [(host, port)]: the stage
    at which the probe fails, or the buffer the one [recv] returns.
    [HostInvalid] is a host that [connect] cannot encode, [ResolveFails] a
    name that does not resolve. *)
Inductive peer_behaviour : Type :=
| SocketFails (e : exn)
| HostInvalid (e : exn)
| ResolveFails (e : exn)
| ConnectFails (e : exn)
| SendFails (e : exn)
| RecvFails (e : exn)
| Responds (response : bytes).

Definition network : Type := string -> Z -> peer_behaviour.

Inductive sock_status : Type := NoSocket | SockOpen | SockClosed.

(** The state one call of [test_pq_handshake] works on: the socket it
    creates, what it sent, and what it logged. *)
Record probe_world : Type := mk_probe_world {
  sock : sock_status;
  sent : option bytes;
  plog : list log_entry
}.

Definition probe_world0 : probe_world :=
  {| sock := NoSocket; sent := None; plog := [] |}.

(** A computation on a [probe_world] that may raise; the world survives the
    exception. *)
Definition probe (A : Type) : Type := probe_world -> result A * probe_world.

Definition probe_ret {A : Type} (a : A) : probe A := fun w => (Ret a, w).

Definition probe_bind {A B : Type} (m : probe A) (k : A -> probe B) : probe B :=
  fun w =>
    match m w with
    | (Ret a, w') => k a w'
    | (Exc e, w') => (Exc e, w')
    end.

Definition probe_lift {A : Type} (r : result A) : probe A := fun w => (r, w).

Declare Scope probe_scope.
Delimit Scope probe_scope with probe.
Notation "x <- m ;; k" := (probe_bind m (fun x => k))
  (at level 100, m at next level, right associativity) : probe_scope.
Notation "m ;;; k" := (probe_bind m (fun _ => k))
  (at level 100, right associativity) : probe_scope.

(** [socket.socket(AF_INET, SOCK_STREAM)] followed by [settimeout]. *)
Definition socket_socket (b : peer_behaviour) : probe unit :=
  fun w =>
    match b with
    | SocketFails e => (Exc e, w)
    | _ => (Ret tt, {| sock := SockOpen; sent := sent w; plog := plog w |})
    end.

(** [sock.connect((host, port))].  The address is converted in this order:
    the host is encoded, the port must fit a C [int] ([OverflowError]), the
    host is resolved, the port must be within [0, 65535] ([OverflowError]);
    only then is the connection attempted. *)
Definition sock_connect (b : peer_behaviour) (port : Z) : probe unit :=
  fun w =>
    match b with
    | HostInvalid e => (Exc e, w)
    | _ =>
        if (port <? - 2147483648) || (2147483647 <? port)
        then (Exc OverflowError, w)
        else
          match b with
          | ResolveFails e => (Exc e, w)
          | _ =>
              if (0 <=? port) && (port <=? 65535) then
                match b with
                | ConnectFails e => (Exc e, w)
                | _ => (Ret tt, w)
                end
              else (Exc OverflowError, w)
          end
    end.

Definition sock_send (b : peer_behaviour) (msg : bytes) : probe unit :=
  fun w =>
    match b with
    | SendFails e => (Exc e, w)
    | _ => (Ret tt, {| sock := sock w; sent := Some msg; plog := plog w |})
    end.

(** [sock.recv(4096)]: at most 4096 bytes of what the peer answers. *)
Definition sock_recv (b : peer_behaviour) : probe bytes :=
  fun w =>
    match b with
    | Responds response => (Ret (take 4096 response), w)
    | RecvFails e => (Exc e, w)
    | SocketFails e | HostInvalid e | ResolveFails e | ConnectFails e
    | SendFails e => (Exc e, w)
    end.

Definition sock_close : probe unit :=
  fun w => (Ret tt, {| sock := SockClosed; sent := sent w; plog := plog w |}).

Definition probe_log (l : log_level) (ev : log_event) : probe unit :=
  fun w => (Ret tt, {| sock := sock w; sent := sent w; plog := plog w ++ [(l, ev)] |}).

(** The [try] block of [test_pq_handshake] (lines 68-88). *)
Definition test_pq_handshake_try (net : network) (host : string) (port : Z)
  : probe bool :=
  (let b := net host port in
   socket_socket b ;;;
   sock_connect b port ;;;
   handshake_msg <- probe_lift (create_pq_handshake None) ;;
   sock_send b handshake_msg ;;;
   response <- sock_recv b ;;
   accepted <- probe_lift (response_accepted response) ;;
   if accepted : bool then
     probe_log INFO (HandshakeSuccessful host port) ;;;
     probe_ret true
   else
     sock_close ;;;
     probe_ret false)%probe.

(** [test_pq_handshake] (lines 65-92): the [try] block and its
    [except Exception] handler.  The result is the returned boolean and the
    world the call leaves behind. *)
Definition test_pq_handshake (net : network) (host : string) (port : Z)
  : bool * probe_world :=
  match test_pq_handshake_try net host port probe_world0 with
  | (Ret r, w) => (r, w)
  | (Exc e, w) =>
      (false, {| sock := sock w; sent := sent w;
                 plog := plog w ++ [(DEBUG, HandshakeFailed host port e)] |})
  end.

(** ** Strings *)

Definition colon : ascii := ":"%char.

(** The split of [s] at its last colon, if it has one. *)
Fixpoint split_last_colon (s : string) : option (string * string) :=
  match s with
  | EmptyString => None
  | String c r =>
      match split_last_colon r with
      | Some (h, p) => Some (String c h, p)
      | None => if Ascii.eqb c colon then Some (EmptyString, r) else None
      end
  end.

(** [s.rsplit(':', 1)]: two parts around the last colon, or [s] alone. *)
Definition py_rsplit1 (s : string) : list string :=
  match split_last_colon s with
  | Some (h, p) => [h; p]
  | None => [s]
  end.

(** The characters [int] skips around a numeral, among the code points
    below 256: tab to carriage return, the space, and the two spaces above
    127 (next line, no-break space).  The separators 28-31 are not among
    them. *)
Definition is_space (c : ascii) : bool :=
  let n := Z.of_N (N_of_ascii c) in
  ((9 <=? n) && (n <=? 13)) || (n =? 32) || (n =? 133) || (n =? 160).

Definition digit_of (c : ascii) : option Z :=
  let n := Z.of_N (N_of_ascii c) in
  if (48 <=? n) && (n <=? 57) then Some (n - 48) else None.

Fixpoint lstrip (s : string) : string :=
  match s with
  | String c r => if is_space c then lstrip r else s
  | EmptyString => EmptyString
  end.

Fixpoint rstrip (s : string) : string :=
  match s with
  | EmptyString => EmptyString
  | String c r =>
      match rstrip r with
      | EmptyString => if is_space c then EmptyString else String c EmptyString
      | r' => String c r'
      end
  end.

(** The digits of a decimal literal: at least one digit, single underscores
    only between digits. *)
Fixpoint digits_value (acc : Z) (after_digit : bool) (s : string) : option Z :=
  match s with
  | EmptyString => if after_digit then Some acc else None
  | String c r =>
      match digit_of c with
      | Some d => digits_value (10 * acc + d) true r
      | None =>
          if Ascii.eqb c "_"%char && after_digit
          then digits_value acc false r
          else None
      end
  end.

(** The default of [sys.get_int_max_str_digits()]: conversions between
    [int] and [str] refuse numerals of more digits. *)
Definition MAX_STR_DIGITS : Z := 4300.

(** The number of decimal digits among the characters of [s]. *)
Fixpoint digit_chars (s : string) : Z :=
  match s with
  | EmptyString => 0
  | String c r =>
      (match digit_of c with Some _ => 1 | None => 0 end) + digit_chars r
  end.

(** [int(s)] for a string: surrounding whitespace, an optional sign, decimal
    digits, at most [MAX_STR_DIGITS] of them; anything else is a
    [ValueError]. *)
Definition py_int (s : string) : result Z :=
  let body := rstrip (lstrip s) in
  let signed :=
    match body with
    | String "-"%char r => digits_value 0 false r ≫= (fun v => Some (- v))
    | String "+"%char r => digits_value 0 false r
    | _ => digits_value 0 false body
    end in
  match signed with
  | Some v =>
      if MAX_STR_DIGITS <? digit_chars body then Exc ValueError else Ret v
  | None => Exc ValueError
  end.

(** [str(n)] and the [{n}] of an f-string, for an integer: its decimal
    numeral, or a [ValueError] when it has more than [MAX_STR_DIGITS]
    digits. *)
Definition py_str (n : Z) : result string :=
  let numeral := NilZero.string_of_int (Z.to_int n) in
  if MAX_STR_DIGITS <? digit_chars numeral then Exc ValueError
  else Ret numeral.

(** ** The seeder object *)

(** One dict appended to [good_peers] (lines 103-110). *)
Record peer_info : Type := mk_peer_info {
  addr : string;
  host : string;
  port : Z;
  pq_capable : bool;
  last_seen : Z;
  success_count : Z
}.

(** The attributes of a [QTCPQSeeder] ([__init__], lines 23-35), and the
    entries it has handed to its logger. *)
Record seeder : Type := mk_seeder {
  known_peers : gset string;
  good_peers : list peer_info;
  output_file : string;
  max_peers : Z;
  log : list log_entry
}.

Definition new_seeder (output_file : string) (max_peers : Z) : seeder :=
  {| known_peers := ∅; good_peers := []; output_file := output_file;
     max_peers := max_peers; log := [] |}.

Definition set_known_peers (kp : gset string) (s : seeder) : seeder :=
  {| known_peers := kp; good_peers := good_peers s;
     output_file := output_file s; max_peers := max_peers s; log := log s |}.

Definition set_good_peers (gp : list peer_info) (s : seeder) : seeder :=
  {| known_peers := known_peers s; good_peers := gp;
     output_file := output_file s; max_peers := max_peers s; log := log s |}.

Definition add_log (entries : list log_entry) (s : seeder) : seeder :=
  {| known_peers := known_peers s; good_peers := good_peers s;
     output_file := output_file s; max_peers := max_peers s;
     log := log s ++ entries |}.

(** [len(self.good_peers)]. *)
Definition confirmed_count (s : seeder) : Z := Z.of_nat (length (good_peers s)).

(** [self.known_peers.add(a)]. *)
Definition known_peers_add (a : string) (s : seeder) : seeder :=
  set_known_peers ({[ a ]} ∪ known_peers s) s.

Definition seeds : list string :=
  ["seed1.qtc.org"; "seed2.qtc.org"; "seed3.qtc.org"; "127.0.0.1"]%string.

(** [f"{seed}:{DEFAULT_PORT}"] (line 48). *)
Definition seed_address (seed : string) : result string :=
  result_bind (py_str DEFAULT_PORT)
    (fun port => Ret (seed ++ ":" ++ port)%string).

(** [add_seed_nodes] (lines 37-48).  The port is the four-digit constant
    [DEFAULT_PORT], so the f-string always yields an address and the [Exc]
    branch is never taken. *)
Definition add_seed_nodes (s : seeder) : seeder :=
  foldl (fun s seed =>
           match seed_address seed with
           | Ret a => known_peers_add a s
           | Exc _ => s
           end)
        s seeds.

(** Lines 97-98 of [crawl_peer]: unpacking the split into exactly two names
    and converting the port. *)
Definition parse_peer_addr (peer_addr : string) : result (string * Z) :=
  match py_rsplit1 peer_addr with
  | [host; port] => result_bind (py_int port) (fun port => Ret (host, port))
  | _ => Exc ValueError
  end.

(** The [try] block of [crawl_peer] (lines 97-114); [now] is what
    [time.time()] reads under the lock. *)
Definition crawl_peer_try (net : network) (now : Z) (peer_addr : string)
    (s : seeder) : result unit * seeder :=
  match parse_peer_addr peer_addr with
  | Exc e => (Exc e, s)
  | Ret (host, port) =>
      let '(capable, w) := test_pq_handshake net host port in
      let s := add_log (plog w) s in
      if capable then
        let peer_info :=
          {| addr := peer_addr; host := host; port := port;
             pq_capable := true; last_seen := now; success_count := 1 |} in
        let s := set_good_peers (good_peers s ++ [peer_info]) s in
        if confirmed_count s mod 10 =? 0
        then (Ret tt, add_log [(INFO, FoundPeers (confirmed_count s))] s)
        else (Ret tt, s)
      else (Ret tt, s)
  end.

(** [crawl_peer] (lines 94-117): the [try] block and its
    [except Exception] handler. *)
Definition crawl_peer (net : network) (now : Z) (peer_addr : string)
    (s : seeder) : result unit * seeder :=
  match crawl_peer_try net now peer_addr s with
  | (Ret tt, s') => (Ret tt, s')
  | (Exc e, s') => (Ret tt, add_log [(ERROR, ErrorCrawling peer_addr e)] s')
  end.

(** ** Crawl coordinator: the thread pool of [crawl_network] *)

(** The state of one pass (lines 127-138).
    - [todo]: the elements of [list(self.known_peers)] the submission loop
      has not reached yet; the iteration order of a Python set is
      unspecified, so the loop may take any of them next.
    - [queue]: work items submitted to the executor and not yet picked up
      ([submit] never blocks: the executor's queue is unbounded).
    - [running]: the calls of [crawl_peer] that a worker thread has begun.
    - [dispatched]: every address submitted during the pass, in order.
    - [reg]: the seeder object all threads share. *)
Record pool : Type := mk_pool {
  todo : list string;
  queue : list string;
  running : list string;
  dispatched : list string;
  reg : seeder
}.

(** What a thread can do next.  [crawl_peer] touches the shared object only
    under [self.lock], so a call takes effect at one instant, [MFinish]. *)
Inductive move : Type :=
| MDispatch (j : nat)
| MStart
| MFinish (i : nat).

(** The test of line 131. *)
Definition cap_reached (s : seeder) : bool := max_peers s <=? confirmed_count s.

(** A worker thread is free to take the next queued item. *)
Definition worker_free (threads : Z) (p : pool) : bool :=
  Z.of_nat (length (running p)) <? threads.

(** One move of one thread; [None] when the move is not possible.
    - [MDispatch j]: one iteration of the loop of lines 130-134 on the
      [j]-th remaining address: [break] when the cap is reached, otherwise
      [executor.submit].
    - [MStart]: a free worker takes the oldest queued item.
    - [MFinish i]: the [i]-th running call of [crawl_peer] completes. *)
Definition exec (net : network) (threads : Z) (now : Z) (m : move) (p : pool)
  : option pool :=
  match m with
  | MDispatch j =>
      match todo p !! j with
      | None => None
      | Some peer =>
          if cap_reached (reg p)
          then Some {| todo := []; queue := queue p; running := running p;
                       dispatched := dispatched p; reg := reg p |}
          else Some {| todo := delete j (todo p); queue := queue p ++ [peer];
                       running := running p;
                       dispatched := dispatched p ++ [peer]; reg := reg p |}
      end
  | MStart =>
      match queue p with
      | [] => None
      | peer :: q =>
          if worker_free threads p
          then Some {| todo := todo p; queue := q;
                       running := running p ++ [peer];
                       dispatched := dispatched p; reg := reg p |}
          else None
      end
  | MFinish i =>
      match running p !! i with
      | None => None
      | Some peer =>
          Some {| todo := todo p; queue := queue p;
                  running := delete i (running p);
                  dispatched := dispatched p;
                  reg := snd (crawl_peer net now peer (reg p)) |}
      end
  end.

(** One step of the pass, and the states a pass can reach. *)
Definition pool_step (net : network) (threads : Z) (p p' : pool) : Prop :=
  exists now m, exec net threads now m p = Some p'.

Inductive pool_steps (net : network) (threads : Z) : pool -> pool -> Prop :=
| pool_steps_refl p : pool_steps net threads p p
| pool_steps_step p p' p'' :
    pool_step net threads p p' ->
    pool_steps net threads p' p'' ->
    pool_steps net threads p p''.

(** Every submitted call has returned and the loop is over: line 138 has been
    passed for every future. *)
Definition drained (p : pool) : Prop :=
  todo p = [] /\ queue p = [] /\ running p = [].

(** The moves possible in [p]. *)
Definition enabled (threads : Z) (p : pool) : list move :=
  (MDispatch <$> seq 0 (length (todo p)))
  ++ (match queue p with
      | [] => []
      | _ :: _ => if worker_free threads p then [MStart] else []
      end)
  ++ (MFinish <$> seq 0 (length (running p))).

(** One decision of the scheduler: which of the possible moves happens
    next, and what the clock reads then. *)
Record tick : Type := mk_tick {
  pick : nat;
  now : Z
}.

Definition tick0 : tick := {| pick := 0; now := 0 |}.

(** The pass under a scheduler: at each step the scheduler picks among the
    possible moves, until none is left.  A scheduler that runs out of
    decisions keeps taking the first possible move. *)
Fixpoint run_pool (net : network) (threads : Z) (fuel : nat)
    (sched : list tick) (p : pool) : pool :=
  match fuel with
  | O => p
  | S fuel' =>
      let moves := enabled threads p in
      let t := hd tick0 sched in
      match moves !! (pick t mod length moves)%nat with
      | None => p
      | Some m =>
          match exec net threads (now t) m p with
          | Some p' => run_pool net threads fuel' (tl sched) p'
          | None => p
          end
      end
  end.

(** Every move lowers this measure, so it bounds the length of a pass. *)
Definition pool_measure (p : pool) : nat :=
  (3 * length (todo p) + 2 * length (queue p) + length (running p))%nat.

Definition init_pool (s : seeder) : pool :=
  {| todo := elements (known_peers s); queue := []; running := [];
     dispatched := []; reg := s |}.

(** [crawl_network] (lines 119-140).  [ThreadPoolExecutor] refuses
    [max_workers <= 0] with a [ValueError]. *)
Definition crawl_network (net : network) (threads : Z) (sched : list tick)
    (s : seeder) : result unit * seeder :=
  let s := add_log [(INFO, StartingCrawl)] s in
  let s := add_seed_nodes s in
  if threads <=? 0 then (Exc ValueError, s)
  else
    let p0 := init_pool s in
    let p := run_pool net threads (pool_measure p0) sched p0 in
    let s := reg p in
    (Ret tt, add_log [(INFO, CrawlCompleted (confirmed_count s))] s).

(** ** Persistence and the runner *)

(** The document [save_peers] serialises (lines 144-148). *)
Record snapshot : Type := mk_snapshot {
  timestamp : Z;
  total_peers : Z;
  peers : list peer_info
}.

(** What a path holds after an attempt to write it: a complete document,
    or the remains of a write that failed after [open] truncated the file. *)
Inductive file : Type :=
| Document (doc : snapshot)
| Partial.

(** What the file system does to one call of [save_peers]. *)
Inductive io_behaviour : Type :=
| OpenFails (e : exn)
| DumpFails (e : exn)
| WriteSucceeds.

(** [save_peers] (lines 142-153). *)
Definition save_peers (now : Z) (io : io_behaviour) (s : seeder)
    (disk : gmap string file) : result unit * seeder * gmap string file :=
  let output :=
    {| timestamp := now; total_peers := confirmed_count s;
       peers := good_peers s |} in
  match io with
  | OpenFails e => (Exc e, s, disk)
  | DumpFails e => (Exc e, s, <[output_file s := Partial]> disk)
  | WriteSucceeds =>
      (Ret tt,
       add_log [(INFO, SavedPeers (confirmed_count s) (output_file s))] s,
       <[output_file s := Document output]> disk)
  end.

(** What one iteration of [run_continuous] meets. *)
Record pass_env : Type := mk_pass_env {
  sched : list tick;
  save_time : Z;
  io : io_behaviour
}.

(** How an observation of [run_continuous] ends: the loop is still going
    when the observation stops, or an exception left the function. *)
Inductive loop_outcome : Type :=
| StillLooping (s : seeder) (disk : gmap string file)
| Propagated (e : exn) (s : seeder) (disk : gmap string file).

(** The largest number of seconds whose nanoseconds fit the 64-bit clock
    of [time.sleep]. *)
Definition SLEEP_MAX : Z := 9223372036.

(** [time.sleep(interval)] for an integer: a length beyond [SLEEP_MAX] in
    either direction is an [OverflowError], a negative length within it a
    [ValueError]. *)
Definition time_sleep (interval : Z) : result unit :=
  if (interval <? - SLEEP_MAX) || (SLEEP_MAX <? interval)
  then Exc OverflowError
  else if interval <? 0 then Exc ValueError else Ret tt.

(** [run_continuous] (lines 155-161), observed for as many iterations as
    [envs] describes.  [crawl_network()] runs with its default of 50
    threads. *)
Fixpoint run_continuous (net : network) (interval : Z) (envs : list pass_env)
    (s : seeder) (disk : gmap string file) : loop_outcome :=
  match envs with
  | [] => StillLooping s disk
  | env :: envs' =>
      match crawl_network net 50 (sched env) s with
      | (Exc e, s) => Propagated e s disk
      | (Ret _, s) =>
          match save_peers (save_time env) (io env) s disk with
          | (Exc e, s, disk) => Propagated e s disk
          | (Ret _, s, disk) =>
              let s := add_log [(INFO, Sleeping interval)] s in
              match time_sleep interval with
              | Exc e => Propagated e s disk
              | Ret _ => run_continuous net interval envs' s disk
              end
          end
      end
  end.

(** The number of passes a seeder has begun, read off its log. *)
Definition is_starting_crawl (e : log_entry) : bool :=
  match e with
  | (INFO, StartingCrawl) => true
  | _ => false
  end.

Definition passes_started (s : seeder) : nat :=
  length (List.filter is_starting_crawl (log s)).

(** ** Example environments *)

(** A seven-byte answer with the magic, version 1 and status 0. *)
Definition ok_response : bytes := QTC_MAGIC_BYTES ++ [x01; x00; x00].

(** Every address answers [ok_response]. *)
Definition net_all_capable : network := fun _ _ => Responds ok_response.

(** The three named seeds answer [ok_response]; nothing listens on
    localhost. *)
Definition net_three_capable : network :=
  fun host _ =>
    if String.eqb host "127.0.0.1" then ConnectFails OSError
    else Responds ok_response.

(** A receive that times out. *)
Definition net_timeout : network := fun _ _ => RecvFails SocketTimeout.

(** The scheduler with no decisions of its own: it always takes the first
    possible move, so every address is submitted before any worker starts. *)
Definition submit_first : list tick := [].

Definition seeder_cap0 : seeder := new_seeder "qtc_peers.json" 0.
Definition seeder_default : seeder := new_seeder "qtc_peers.json" 1000.

(** A pool whose frontier holds an entry without a colon and an entry
    whose port is not a number, next to a proper one. *)
Definition pool_malformed : pool :=
  {| todo := ["no-colon-here"; "seed1.qtc.org:http"; "127.0.0.1:8333"]%string;
     queue := []; running := []; dispatched := []; reg := seeder_default |}.

Definition env_ok : pass_env :=
  {| sched := []; save_time := 0; io := WriteSucceeds |}.

Definition env_disk_error : pass_env :=
  {| sched := []; save_time := 0; io := OpenFails OSError |}.

(** The seeder a pass or a run ended with. *)
Definition outcome_seeder (o : loop_outcome) : seeder :=
  match o with
  | StillLooping s _ => s
  | Propagated _ s _ => s
  end.

(** Whether a probe of [peer_addr] would be recorded: the address parses
    and the handshake succeeds. *)
Definition capable (net : network) (peer_addr : string) : bool :=
  match parse_peer_addr peer_addr with
  | Ret (host, port) => fst (test_pq_handshake net host port)
  | Exc _ => false
  end.

Definition count_capable (net : network) (l : list string) : Z :=
  Z.of_nat (length (filter (fun a => capable net a = true) l)).

(** The records one call of [crawl_peer] appends: one for a capable
    address, none otherwise. *)
Definition peer_record (net : network) (now : Z) (peer_addr : string)
  : list peer_info :=
  match parse_peer_addr peer_addr with
  | Ret (host, port) =>
      if fst (test_pq_handshake net host port)
      then [{| addr := peer_addr; host := host; port := port;
               pq_capable := true; last_seen := now; success_count := 1 |}]
      else []
  | Exc _ => []
  end.

(** What the check of lines 81-83 asks of a buffer. *)
Definition accepting (response : bytes) : Prop :=
  7 <= Z.of_nat (length response)
  /\ take 4 response = QTC_MAGIC_BYTES
  /\ response !! 6%nat = Some x00.


(** ** Invariants of a pass *)

(** A quantity no move changes: every capable address that was dispatched
    is either still on its way (queued or running) or recorded. *)
Definition conserved (net : network) (p : pool) : Z :=
  confirmed_count (reg p) + count_capable net (queue p)
  + count_capable net (running p) - count_capable net (dispatched p).

(** How a later state of a pass relates to an earlier one. *)
Record extends (net : network) (p p' : pool) : Prop := mk_extends {
  ext_good : good_peers (reg p) `prefix_of` good_peers (reg p');
  ext_max : max_peers (reg p') = max_peers (reg p);
  ext_conserved : conserved net p' = conserved net p;
  ext_dispatched : dispatched p `prefix_of` dispatched p';
  ext_gate :
    dispatched p' <> dispatched p -> confirmed_count (reg p) < max_peers (reg p);
  ext_frontier :
    (length (dispatched p') + length (todo p')
     <= length (dispatched p) + length (todo p))%nat
}.

(** No address is dispatched twice, none waits to be dispatched again, and
    all of them come from the frontier. *)
Definition dispatch_once (frontier : list string) (p : pool) : Prop :=
  NoDup (dispatched p ++ todo p)
  /\ forall x, x ∈ dispatched p ++ todo p -> x ∈ frontier.

(** No address is recorded twice, and none still on its way is recorded. *)
Definition recorded_once (p : pool) : Prop :=
  NoDup (todo p ++ queue p ++ running p ++ (addr <$> good_peers (reg p))).

(** Every record is an old one or belongs to a capable address. *)
Definition records_capable (net : network) (old : list peer_info) (p : pool)
  : Prop :=
  forall r, r ∈ good_peers (reg p) -> r ∈ old \/ capable net (addr r) = true.

(** Nothing was dispatched and the seeder is untouched. *)
Definition untouched (s : seeder) (p : pool) : Prop :=
  queue p = [] /\ running p = [] /\ dispatched p = [] /\ reg p = s.

(** The cases of a successful [exec]: [break], [submit], a worker taking an
    item, a call of [crawl_peer] completing. *)
Ltac exec_cases H :=
  match type of H with
  | exec _ _ _ ?m ?p = Some _ =>
      unfold exec in H; destruct m as [j| |i];
      [ destruct (todo p !! j) as [peer|] eqn:Hpeer; [|discriminate H];
        destruct (cap_reached (reg p)) eqn:Hcap; injection H as <-
      | destruct (queue p) as [|peer q] eqn:Hq; [discriminate H|];
        destruct (worker_free _ p) eqn:Hfree; [|discriminate H];
        injection H as <-
      | destruct (running p !! i) as [peer|] eqn:Hpeer; [|discriminate H];
        injection H as <- ]
  end.

(** ** The command line *)

(** What [parser.parse_args()] returns (lines 164-176): the output path, the
    cap, the thread count, the continuous flag and the interval, the numeric
    ones already converted by [type=int]. *)
Record args : Type := mk_args {
  arg_output : string;
  arg_max_peers : Z;
  arg_threads : Z;
  arg_continuous : bool;
  arg_interval : Z
}.

(** How an observation of [main] ends: it returned, it is still inside the
    loop of [run_continuous] (or has not been observed at all), or an
    exception left it. *)
Inductive main_outcome : Type :=
| Exited (s : seeder) (disk : gmap string file)
| Running (s : seeder) (disk : gmap string file)
| Raised (e : exn) (s : seeder) (disk : gmap string file).

(** [main] after argument parsing (lines 178-184).  [envs] describes the
    passes observed; the single-shot branch meets the first of them. *)
Definition main (net : network) (a : args) (envs : list pass_env)
    (disk : gmap string file) : main_outcome :=
  let seeder := new_seeder (arg_output a) (arg_max_peers a) in
  if arg_continuous a then
    match run_continuous net (arg_interval a) envs seeder disk with
    | StillLooping s disk => Running s disk
    | Propagated e s disk => Raised e s disk
    end
  else
    match envs with
    | [] => Running seeder disk
    | env :: _ =>
        match crawl_network net (arg_threads a) (sched env) seeder with
        | (Exc e, s) => Raised e s disk
        | (Ret _, s) =>
            match save_peers (save_time env) (io env) s disk with
            | (Exc e, s, disk) => Raised e s disk
            | (Ret _, s, disk) => Exited s disk
            end
        end
    end.

Definition main_seeder (o : main_outcome) : seeder :=
  match o with
  | Exited s _ | Running s _ | Raised _ s _ => s
  end.

Definition main_disk (o : main_outcome) : gmap string file :=
  match o with
  | Exited _ d | Running _ d | Raised _ _ d => d
  end.

(** ** Further notions for the properties *)

(** Every character of [s] satisfies [P]. *)
Fixpoint string_all (P : ascii -> bool) (s : string) : bool :=
  match s with
  | EmptyString => true
  | String c r => P c && string_all P r
  end.

Definition no_colon (s : string) : bool :=
  string_all (fun c => negb (Ascii.eqb c colon)) s.

(** The value of a decimal numeral read after the digits worth [acc]. *)
Fixpoint uint_value (acc : Z) (d : Decimal.uint) : Z :=
  match d with
  | Decimal.Nil => acc
  | Decimal.D0 d => uint_value (10 * acc + 0) d
  | Decimal.D1 d => uint_value (10 * acc + 1) d
  | Decimal.D2 d => uint_value (10 * acc + 2) d
  | Decimal.D3 d => uint_value (10 * acc + 3) d
  | Decimal.D4 d => uint_value (10 * acc + 4) d
  | Decimal.D5 d => uint_value (10 * acc + 5) d
  | Decimal.D6 d => uint_value (10 * acc + 6) d
  | Decimal.D7 d => uint_value (10 * acc + 7) d
  | Decimal.D8 d => uint_value (10 * acc + 8) d
  | Decimal.D9 d => uint_value (10 * acc + 9) d
  end.

(** The records appended since the list had [n0] entries. *)
Definition new_records (n0 : nat) (p : pool) : list peer_info :=
  drop n0 (good_peers (reg p)).

(** A record as [crawl_peer] builds it: host and port are what the address
    parses to, and the constant fields have their constants. *)
Definition record_consistent (net : network) (r : peer_info) : Prop :=
  parse_peer_addr (addr r) = Ret (host r, port r)
  /\ pq_capable r = true
  /\ success_count r = 1
  /\ capable net (addr r) = true.

(** The capable addresses among those dispatched are, each once, the ones
    recorded since the start or still on their way; and every record
    appended since the start is consistent. *)
Definition records_match (net : network) (n0 : nat) (p : pool) : Prop :=
  (n0 <= length (good_peers (reg p)))%nat
  /\ (addr <$> new_records n0 p)
       ++ filter (fun a => capable net a = true) (queue p)
       ++ filter (fun a => capable net a = true) (running p)
     ≡ₚ filter (fun a => capable net a = true) (dispatched p)
  /\ Forall (record_consistent net) (new_records n0 p).

(** The submission loop has not left anything out: what is dispatched and
    what is still to come make up the frontier, and the cap leaves room for
    all of it. *)
Definition whole_frontier (net : network) (frontier : list string) (c0 : Z)
    (p : pool) : Prop :=
  dispatched p ++ todo p ≡ₚ frontier
  /\ conserved net p = c0
  /\ c0 + Z.of_nat (length frontier) <= max_peers (reg p).

(** How many records of [l] carry the address [a]. *)
Definition records_of (a : string) (l : list peer_info) : nat :=
  length (filter (fun x => x = a) (addr <$> l)).

(** * Properties *)

(** ** Bytes and the codec *)

Lemma bytes_eqb_eq (a b : bytes) : bytes_eqb a b = true <-> a = b.
Proof.
  revert b. induction a as [|x a IH]; intros [|y b]; simpl; try easy.
  rewrite andb_true_iff, IH. split.
  - intros [Hxy ->]. apply Byte.byte_dec_bl in Hxy. by subst.
  - intros [= -> ->]. split; [by apply Byte.byte_dec_lb | done].
Qed.

Lemma byte_eqb_eq (x y : byte) : Byte.eqb x y = true <-> x = y.
Proof.
  split; [apply Byte.byte_dec_bl | apply Byte.byte_dec_lb].
Qed.

Lemma Z_of_byte_of_Z (z : Z) : Z_of_byte (byte_of_Z z) = z mod 256.
Proof.
  unfold Z_of_byte, byte_of_Z.
  assert (Hr : 0 <= z mod 256 < 256) by (apply Z.mod_pos_bound; lia).
  destruct (Byte.of_N (Z.to_N (z mod 256))) as [b|] eqn:Hb.
  - apply Byte.to_of_N in Hb. rewrite Hb. lia.
  - apply Byte.of_N_None_iff in Hb. lia.
Qed.

Lemma struct_pack_H_value (n : Z) :
  0 <= n <= 65535 ->
  exists lo hi, struct_pack_H n = Ret [lo; hi]
                /\ Z_of_byte lo + 256 * Z_of_byte hi = n.
Proof.
  intros Hn. unfold struct_pack_H.
  replace ((0 <=? n) && (n <=? 65535)) with true
    by (symmetry; apply andb_true_iff; lia).
  eexists _, _. split; [reflexivity|].
  rewrite !Z_of_byte_of_Z.
  change 255 with (Z.ones 8). rewrite Z.land_ones by lia.
  rewrite Z.shiftr_div_pow2 by lia. change (2 ^ 8) with 256.
  rewrite Z.mod_mod by lia.
  assert (0 <= n / 256 < 256) by (split; [apply Z.div_pos | apply Z.div_lt_upper_bound]; lia).
  rewrite (Z.mod_small (n / 256)) by lia.
  pose proof (Z.div_mod n 256). lia.
Qed.

Lemma struct_pack_H_out_of_range (n : Z) :
  65535 < n -> struct_pack_H n = Exc StructError.
Proof.
  intros Hn. unfold struct_pack_H.
  replace (n <=? 65535) with false by (symmetry; apply Z.leb_gt; lia).
  by rewrite andb_false_r.
Qed.

(** A ciphertext longer than a 16-bit length field can describe makes
    [struct.pack] raise: no probe is produced. *)
Lemma create_pq_handshake_too_long (ct : bytes) :
  65535 < Z.of_nat (length ct) ->
  create_pq_handshake (Some ct) = Exc StructError.
Proof.
  intros Hlen. unfold create_pq_handshake.
  change (struct_pack_H QTC_VERSION) with (Ret (A:=bytes) [x01; x00]).
  simpl result_bind. rewrite struct_pack_H_out_of_range by lia. done.
Qed.

(** C3 (as amended).  For every supplied ciphertext of at most 65535 bytes
    the encoded probe is the magic, the version 1 as two little-endian bytes,
    the ciphertext length as two little-endian bytes, the ciphertext and 32
    zero bytes; without a ciphertext the 1568 zero bytes of the placeholder
    are encoded in its place. *)
Theorem create_pq_handshake_layout (ct : bytes) :
  Z.of_nat (length ct) <= 65535 ->
  (exists lo hi : byte,
      create_pq_handshake (Some ct)
      = Ret (QTC_MAGIC_BYTES ++ [x01; x00] ++ [lo; hi] ++ ct ++ repeat x00 32)
      /\ Z_of_byte lo + 256 * Z_of_byte hi = Z.of_nat (length ct))
  /\ create_pq_handshake None
     = Ret (QTC_MAGIC_BYTES ++ [x01; x00] ++ [x20; x06]
            ++ repeat x00 1568 ++ repeat x00 32)
  /\ Z_of_byte x20 + 256 * Z_of_byte x06 = 1568
  /\ Z_of_byte x01 + 256 * Z_of_byte x00 = QTC_VERSION
  /\ length QTC_MAGIC_BYTES = 4%nat.
Proof.
  intros Hlen. split; [|split; [|repeat split]].
  - destruct (struct_pack_H_value (Z.of_nat (length ct))) as (lo & hi & Hp & Hv);
      [lia|].
    exists lo, hi. split; [|exact Hv].
    unfold create_pq_handshake.
    change (struct_pack_H QTC_VERSION) with (Ret (A:=bytes) [x01; x00]).
    simpl result_bind. rewrite Hp. simpl result_bind.
    cbv zeta. rewrite <- ?app_assoc. reflexivity.
  - vm_compute. reflexivity.
Qed.

Lemma create_pq_handshake_layout_witness :
  Z.of_nat (length ok_response) <= 65535
  /\ exists lo hi : byte,
       create_pq_handshake (Some ok_response)
       = Ret (QTC_MAGIC_BYTES ++ [x01; x00] ++ [lo; hi]
              ++ ok_response ++ repeat x00 32)
       /\ Z_of_byte lo + 256 * Z_of_byte hi = Z.of_nat (length ok_response).
Proof.
  split; [vm_compute; discriminate|].
  apply (create_pq_handshake_layout ok_response). vm_compute. discriminate.
Defined.

(** C3 (as stated) fails for a ciphertext of 65536 bytes: [struct.pack]
    raises and no probe is encoded. *)
Lemma create_pq_handshake_layout_counterexample :
  create_pq_handshake (Some (repeat x00 (Z.to_nat 65536))) = Exc StructError
  /\ ~ (exists out,
          create_pq_handshake (Some (repeat x00 (Z.to_nat 65536))) = Ret out).
Proof.
  assert (H : create_pq_handshake (Some (repeat x00 (Z.to_nat 65536)))
              = Exc StructError).
  { apply create_pq_handshake_too_long. rewrite repeat_length. lia. }
  split; [exact H|]. intros [out Hout]. congruence.
Qed.

(** ** The acceptance check *)

Lemma response_accepted_total (response : bytes) :
  exists b, response_accepted response = Ret b.
Proof.
  unfold response_accepted.
  destruct (7 <=? Z.of_nat (length response)) eqn:Hlen; [|by eexists].
  destruct (bytes_eqb (take 4 response) QTC_MAGIC_BYTES); [|by eexists].
  apply Z.leb_le in Hlen.
  destruct (lookup_lt_is_Some_2 response 6%nat) as [st Hst]; [lia|].
  unfold bytes_getitem. rewrite Hst. by eexists.
Qed.

Lemma response_accepted_true (response : bytes) :
  response_accepted response = Ret true <-> accepting response.
Proof.
  unfold response_accepted, accepting.
  destruct (7 <=? Z.of_nat (length response)) eqn:Hlen.
  - apply Z.leb_le in Hlen.
    destruct (bytes_eqb (take 4 response) QTC_MAGIC_BYTES) eqn:Hmagic.
    + apply bytes_eqb_eq in Hmagic.
      destruct (lookup_lt_is_Some_2 response 6%nat) as [st Hst]; [lia|].
      unfold bytes_getitem. rewrite Hst. simpl. split.
      * intros [= Hz]. apply byte_eqb_eq in Hz. by subst.
      * intros (_ & _ & [= ->]). reflexivity.
    + split; [discriminate|]. intros (_ & Hm & _).
      apply bytes_eqb_eq in Hm. congruence.
  - apply Z.leb_gt in Hlen. split; [discriminate|]. intros (? & _). lia.
Qed.

Lemma accepting_take (response : bytes) :
  accepting (take 4096 response) <-> accepting response.
Proof.
  unfold accepting. rewrite length_take, take_take.
  change (4 `min` 4096)%nat with 4%nat.
  rewrite lookup_take_lt by (compute; lia).
  split; intros (H1 & H2 & H3); (split; [lia | done]).
Qed.

(** The probe of a listening peer returns the classification of the first
    4096 bytes of its answer. *)
Lemma test_pq_handshake_responds (response : bytes) (host : string) :
  fst (test_pq_handshake (fun _ _ => Responds response) host DEFAULT_PORT)
  = true <-> accepting response.
Proof.
  rewrite <- accepting_take, <- response_accepted_true.
  destruct (response_accepted_total (take 4096 response)) as [b' Hb'].
  unfold test_pq_handshake, test_pq_handshake_try, probe_bind, probe_lift,
    socket_socket, sock_connect, sock_send, sock_recv, probe_world0.
  change ((0 <=? DEFAULT_PORT) && (DEFAULT_PORT <=? 65535)) with true.
  cbv iota beta.
  destruct (create_pq_handshake None) as [msg|e] eqn:Hmsg;
    [|vm_compute in Hmsg; discriminate].
  cbv iota beta. rewrite Hb'. destruct b'; simpl; split; congruence.
Qed.

(** C2.  A received buffer is classified as capable exactly when it has at
    least 7 bytes, starts with the magic and holds 0 at offset 6; every
    other buffer is classified as not capable, and the classification never
    raises.  The probe of a peer that answers with the buffer returns that
    classification. *)
Theorem response_accepted_spec (response : bytes) :
  (response_accepted response = Ret true <-> accepting response)
  /\ (response_accepted response = Ret false <-> ~ accepting response)
  /\ (forall e, response_accepted response <> Exc e)
  /\ (fst (test_pq_handshake (fun _ _ => Responds response) "127.0.0.1" DEFAULT_PORT)
      = true <-> accepting response).
Proof.
  pose proof (response_accepted_true response) as Ht.
  destruct (response_accepted_total response) as [b Hb].
  split; [exact Ht|]. split; [|split].
  - rewrite Hb in *. destruct b.
    + split; [discriminate|]. intros Hn. destruct Hn. by apply Ht.
    + split; [|done]. intros _ Ha. apply Ht in Ha. discriminate.
  - intros e. rewrite Hb. discriminate.
  - apply test_pq_handshake_responds.
Qed.

(** C9.  The check reads the first four bytes and the byte at offset 6 only:
    two buffers that differ in the version field at offsets 4-5 and in
    everything after offset 6 are classified alike, and a buffer with the
    magic, any version, a zero status and any trailing bytes is capable. *)
Theorem response_accepted_ignores_version_and_tail
    (m0 m1 m2 m3 v1 v2 v1' v2' st : byte) (rest rest' : bytes) :
  response_accepted ([m0; m1; m2; m3; v1; v2; st] ++ rest)
  = response_accepted ([m0; m1; m2; m3; v1'; v2'; st] ++ rest')
  /\ response_accepted (QTC_MAGIC_BYTES ++ [v1; v2; x00] ++ rest) = Ret true
  /\ fst (test_pq_handshake
            (fun _ _ => Responds (QTC_MAGIC_BYTES ++ [v1; v2; x00] ++ rest))
            "127.0.0.1" DEFAULT_PORT) = true.
Proof.
  assert (Hacc : accepting (QTC_MAGIC_BYTES ++ [v1; v2; x00] ++ rest)).
  { unfold accepting. simpl. split; [lia|done]. }
  split; [|split].
  - unfold response_accepted. simpl length.
    replace (7 <=? Z.of_nat (S (S (S (S (S (S (S (length rest))))))))) with true
      by (symmetry; apply Z.leb_le; lia).
    replace (7 <=? Z.of_nat (S (S (S (S (S (S (S (length rest'))))))))) with true
      by (symmetry; apply Z.leb_le; lia).
    reflexivity.
  - by apply response_accepted_true.
  - by apply test_pq_handshake_responds.
Qed.

(** ** The prober and its socket *)

(** C5 (evaluation of the code).  A probe that is answered with an accepted
    buffer returns [True] with its socket still open, and so does a probe
    whose receive times out (returning [False]); only the rejection path
    reaches [sock.close()]. *)
Theorem test_pq_handshake_leaves_socket_open :
  test_pq_handshake net_all_capable "127.0.0.1" DEFAULT_PORT
  = (true, {| sock := SockOpen;
              sent := Some (QTC_MAGIC_BYTES ++ [x01; x00] ++ [x20; x06]
                            ++ repeat x00 1568 ++ repeat x00 32);
              plog := [(INFO, HandshakeSuccessful "127.0.0.1" DEFAULT_PORT)] |})
  /\ fst (test_pq_handshake net_timeout "127.0.0.1" DEFAULT_PORT) = false
  /\ sock (snd (test_pq_handshake net_timeout "127.0.0.1" DEFAULT_PORT)) = SockOpen
  /\ sock (snd (test_pq_handshake (fun _ _ => Responds [])
                  "127.0.0.1" DEFAULT_PORT)) = SockClosed.
Proof.
  repeat split; vm_compute; reflexivity.
Qed.

(** What a probe hands to the logger: at most one entry, about the
    handshake. *)
Lemma test_pq_handshake_plog (net : network) (h : string) (pt : Z) :
  List.filter is_starting_crawl (plog (snd (test_pq_handshake net h pt))) = [].
Proof.
  unfold test_pq_handshake, test_pq_handshake_try, probe_bind, probe_lift,
    socket_socket, sock_connect, sock_send, sock_recv, sock_close, probe_log,
    probe_ret, probe_world0.
  destruct (create_pq_handshake None) as [msg|e] eqn:Hmsg;
    [|vm_compute in Hmsg; discriminate].
  destruct (net h pt) as [e|e|e|e|e|e|response]; cbv iota beta;
    try reflexivity;
    destruct ((pt <? - 2147483648) || (2147483647 <? pt)); cbv iota beta;
    try reflexivity;
    destruct ((0 <=? pt) && (pt <=? 65535)); cbv iota beta; try reflexivity.
  destruct (response_accepted_total (take 4096 response)) as [b Hb].
  rewrite Hb. destruct b; reflexivity.
Qed.

(** ** One call of [crawl_peer] *)

Lemma crawl_peer_returns (net : network) (now : Z) (a : string) (s : seeder) :
  fst (crawl_peer net now a s) = Ret tt.
Proof.
  unfold crawl_peer. destruct (crawl_peer_try net now a s) as [[[]|e] s']; done.
Qed.

Lemma crawl_peer_good_peers (net : network) (now : Z) (a : string) (s : seeder) :
  good_peers (snd (crawl_peer net now a s)) = good_peers s ++ peer_record net now a.
Proof.
  unfold crawl_peer, crawl_peer_try, peer_record.
  destruct (parse_peer_addr a) as [[h pt]|e]; simpl; [|by rewrite app_nil_r].
  destruct (test_pq_handshake net h pt) as [c w]. destruct c; simpl.
  - match goal with |- context [if ?b then _ else _] => destruct b end; done.
  - by rewrite app_nil_r.
Qed.

Lemma crawl_peer_config (net : network) (now : Z) (a : string) (s : seeder) :
  max_peers (snd (crawl_peer net now a s)) = max_peers s
  /\ known_peers (snd (crawl_peer net now a s)) = known_peers s
  /\ output_file (snd (crawl_peer net now a s)) = output_file s.
Proof.
  unfold crawl_peer, crawl_peer_try.
  destruct (parse_peer_addr a) as [[h pt]|e]; simpl; [|done].
  destruct (test_pq_handshake net h pt) as [c w]. destruct c; simpl; [|done].
  match goal with |- context [if ?b then _ else _] => destruct b end; done.
Qed.

Lemma crawl_peer_passes_started (net : network) (now : Z) (a : string) (s : seeder) :
  passes_started (snd (crawl_peer net now a s)) = passes_started s.
Proof.
  unfold crawl_peer, crawl_peer_try, passes_started.
  destruct (parse_peer_addr a) as [[h pt]|e]; simpl;
    [|by rewrite List.filter_app, length_app, Nat.add_0_r].
  pose proof (test_pq_handshake_plog net h pt) as Hlog.
  destruct (test_pq_handshake net h pt) as [c w]. simpl in Hlog.
  destruct c; simpl.
  - match goal with |- context [if ?b then _ else _] => destruct b end; simpl;
      rewrite ?List.filter_app, ?Hlog, ?length_app; simpl; lia.
  - rewrite List.filter_app, Hlog, length_app. simpl. lia.
Qed.

Lemma peer_record_capable (net : network) (now : Z) (a : string) :
  peer_record net now a = []  /\ capable net a = false
  \/ exists r, peer_record net now a = [r] /\ addr r = a /\ capable net a = true.
Proof.
  unfold peer_record, capable.
  destruct (parse_peer_addr a) as [[h pt]|e]; [|by left].
  destruct (fst (test_pq_handshake net h pt)); [right; by eexists|by left].
Qed.

(** ** Counting capable addresses *)

Lemma count_capable_app (net : network) (l k : list string) :
  count_capable net (l ++ k) = count_capable net l + count_capable net k.
Proof.
  unfold count_capable. rewrite filter_app, length_app. lia.
Qed.

Lemma count_capable_one (net : network) (a : string) :
  count_capable net [a] = if capable net a then 1 else 0.
Proof.
  unfold count_capable. rewrite filter_cons.
  destruct (decide (capable net a = true)) as [->|Hc]; [done|].
  by destruct (capable net a).
Qed.

Lemma count_capable_cons (net : network) (a : string) (l : list string) :
  count_capable net (a :: l) = count_capable net [a] + count_capable net l.
Proof.
  apply (count_capable_app net [a] l).
Qed.

Lemma count_capable_delete (net : network) (l : list string) (i : nat) (a : string) :
  l !! i = Some a ->
  count_capable net l = count_capable net [a] + count_capable net (delete i l).
Proof.
  intros Hi. rewrite <- count_capable_cons. unfold count_capable.
  by rewrite (delete_Permutation l i a Hi) at 1.
Qed.

Lemma count_capable_bounds (net : network) (l : list string) :
  0 <= count_capable net l <= Z.of_nat (length l).
Proof.
  unfold count_capable. pose proof (length_filter (fun a => capable net a = true) l).
  lia.
Qed.

(** ** Moves of the pool *)

Lemma extends_refl (net : network) (p : pool) : extends net p p.
Proof.
  split; done.
Qed.

Lemma extends_trans (net : network) (p p' p'' : pool) :
  extends net p p' -> extends net p' p'' -> extends net p p''.
Proof.
  intros [G1 M1 C1 D1 T1 F1] [G2 M2 C2 D2 T2 F2]. split.
  - by etrans.
  - congruence.
  - congruence.
  - by etrans.
  - intros Hne. destruct (decide (dispatched p' = dispatched p)) as [Heq|Hne'].
    + rewrite Heq in T2. specialize (T2 Hne). rewrite M1 in T2.
      apply prefix_length in G1. unfold confirmed_count in *. lia.
    + by apply T1.
  - lia.
Qed.

Lemma pool_step_extends (net : network) (threads : Z) (p p' : pool) :
  pool_step net threads p p' -> extends net p p'.
Proof.
  intros (now & m & H). exec_cases H.
  - split; simpl; first [done | lia].
  - apply Z.leb_gt in Hcap.
    assert (Hlen : (length (delete j (todo p)) = length (todo p) - 1)%nat)
      by (apply length_delete; eauto).
    apply lookup_lt_Some in Hpeer.
    split; simpl.
    + done.
    + done.
    + unfold conserved. simpl. rewrite !count_capable_app. lia.
    + by apply prefix_app_r.
    + done.
    + rewrite length_app. simpl. lia.
  - split; simpl; try first [done | lia].
    unfold conserved. simpl. rewrite Hq, count_capable_cons, count_capable_app. lia.
  - destruct (crawl_peer_config net now peer (reg p)) as (Hmax & _ & _).
    pose proof (crawl_peer_good_peers net now peer (reg p)) as Hgood.
    split; simpl.
    + rewrite Hgood. by apply prefix_app_r.
    + done.
    + unfold conserved, confirmed_count. simpl.
      rewrite Hgood, length_app, (count_capable_delete net _ _ _ Hpeer),
        count_capable_one.
      destruct (peer_record_capable net now peer) as [[-> ->]|(r & -> & _ & ->)];
        simpl; lia.
    + done.
    + done.
    + lia.
Qed.

Lemma pool_steps_extends (net : network) (threads : Z) (p p' : pool) :
  pool_steps net threads p p' -> extends net p p'.
Proof.
  induction 1 as [p|p p' p'' Hstep _ IH]; [apply extends_refl|].
  eapply extends_trans; [by eapply pool_step_extends|done].
Qed.

Lemma pool_steps_trans (net : network) (threads : Z) (p p' p'' : pool) :
  pool_steps net threads p p' -> pool_steps net threads p' p'' ->
  pool_steps net threads p p''.
Proof.
  induction 1; [done|]. intros. eapply pool_steps_step; eauto.
Qed.

(** An invariant of single moves holds along a whole pass. *)
Lemma pool_steps_invariant (net : network) (threads : Z) (P : pool -> Prop) :
  (forall p p', P p -> pool_step net threads p p' -> P p') ->
  forall p p', pool_steps net threads p p' -> P p -> P p'.
Proof.
  intros Hstep p p' Hsteps. induction Hsteps; eauto.
Qed.

Lemma dispatch_once_step (net : network) (threads : Z)
    (frontier : list string) (p p' : pool) :
  dispatch_once frontier p -> pool_step net threads p p' ->
  dispatch_once frontier p'.
Proof.
  unfold dispatch_once. intros [Hinv Hsub] (now & m & H).
  exec_cases H; simpl; try done.
  - rewrite app_nil_r. split.
    + by apply NoDup_app in Hinv as (? & _ & _).
    + intros x Hx. apply Hsub, elem_of_app. by left.
  - assert (Hperm : (dispatched p ++ [peer]) ++ delete j (todo p)
                    ≡ₚ dispatched p ++ todo p).
    { rewrite (delete_Permutation _ _ _ Hpeer) at 2. solve_Permutation. }
    split.
    + by rewrite Hperm.
    + intros x Hx. apply Hsub. by rewrite <- Hperm.
Qed.

Lemma recorded_once_step (net : network) (threads : Z) (p p' : pool) :
  recorded_once p -> pool_step net threads p p' -> recorded_once p'.
Proof.
  unfold recorded_once. intros Hinv (now & m & H). exec_cases H; simpl.
  - by apply NoDup_app in Hinv as (_ & _ & ?).
  - rewrite (delete_Permutation _ _ _ Hpeer) in Hinv.
    eapply NoDup_Permutation_proper; [|exact Hinv]. solve_Permutation.
  - try rewrite Hq in Hinv.
    eapply NoDup_Permutation_proper; [|exact Hinv]. solve_Permutation.
  - rewrite crawl_peer_good_peers, fmap_app.
    rewrite (delete_Permutation _ _ _ Hpeer) in Hinv.
    assert (Hfront : NoDup (peer :: todo p ++ queue p ++ delete i (running p)
                            ++ (addr <$> good_peers (reg p)))).
    { eapply NoDup_Permutation_proper; [|exact Hinv]. solve_Permutation. }
    destruct (peer_record_capable net now peer) as [[-> _]|(r & -> & Hr & _)].
    + simpl. rewrite app_nil_r. by apply NoDup_cons_1_2 in Hfront.
    + simpl. rewrite Hr.
      eapply NoDup_Permutation_proper; [|exact Hfront]. solve_Permutation.
Qed.

Lemma records_capable_step (net : network) (threads : Z)
    (old : list peer_info) (p p' : pool) :
  records_capable net old p -> pool_step net threads p p' ->
  records_capable net old p'.
Proof.
  unfold records_capable. intros Hinv (now & m & H). exec_cases H; simpl; try done.
  intros r. rewrite crawl_peer_good_peers, elem_of_app. intros [Hr|Hr]; [auto|].
  destruct (peer_record_capable net now peer) as [[Hnone _]|(r' & Hone & Ha & Hc)].
  - rewrite Hnone in Hr. by apply elem_of_nil in Hr.
  - rewrite Hone in Hr. apply list_elem_of_singleton in Hr. subst r. right.
    by rewrite Ha.
Qed.

Lemma untouched_step (net : network) (threads : Z) (s : seeder) (p p' : pool) :
  max_peers s <= 0 ->
  untouched s p -> pool_step net threads p p' -> untouched s p'.
Proof.
  unfold untouched. intros Hmax (Hqu & Hru & Hdi & Hs) (now & m & H).
  exec_cases H; simpl.
  - done.
  - apply Z.leb_gt in Hcap. rewrite Hs in Hcap. unfold confirmed_count in Hcap. lia.
  - congruence.
  - rewrite Hru in Hpeer. by rewrite lookup_nil in Hpeer.
Qed.

(** ** The scheduler *)

Lemma exec_measure (net : network) (threads : Z) (now : Z) (m : move) (p p' : pool) :
  exec net threads now m p = Some p' -> (pool_measure p' < pool_measure p)%nat.
Proof.
  intros H. unfold pool_measure. exec_cases H; simpl.
  - apply lookup_lt_Some in Hpeer. lia.
  - assert ((length (delete j (todo p)) = length (todo p) - 1)%nat)
      by (apply length_delete; eauto).
    apply lookup_lt_Some in Hpeer. rewrite length_app. simpl. lia.
  - rewrite length_app. simpl. lia.
  - assert ((length (delete i (running p)) = length (running p) - 1)%nat)
      by (apply length_delete; eauto).
    apply lookup_lt_Some in Hpeer. lia.
Qed.

Lemma enabled_exec (net : network) (threads : Z) (now : Z) (m : move) (p : pool) :
  m ∈ enabled threads p -> exists p', exec net threads now m p = Some p'.
Proof.
  unfold enabled. rewrite !elem_of_app, !list_elem_of_fmap.
  intros [(j & -> & Hj)|[Hstart|(i & -> & Hi)]].
  - apply elem_of_seq in Hj.
    destruct (lookup_lt_is_Some_2 (todo p) j) as [peer Hpeer]; [lia|].
    simpl. rewrite Hpeer. destruct (cap_reached (reg p)); eauto.
  - destruct (queue p) as [|peer q] eqn:Hq; [by apply elem_of_nil in Hstart|].
    destruct (worker_free threads p) eqn:Hfree; [|by apply elem_of_nil in Hstart].
    apply list_elem_of_singleton in Hstart. subst m. simpl.
    rewrite Hq, Hfree. eauto.
  - apply elem_of_seq in Hi.
    destruct (lookup_lt_is_Some_2 (running p) i) as [peer Hpeer]; [lia|].
    simpl. rewrite Hpeer. eauto.
Qed.

Lemma enabled_nil_drained (threads : Z) (p : pool) :
  0 < threads -> enabled threads p = [] -> drained p.
Proof.
  unfold enabled, drained. intros Hthreads H.
  apply app_eq_nil in H as [Ht H]. apply app_eq_nil in H as [Hq Hr].
  apply fmap_nil_inv in Ht, Hr.
  assert (Htodo : todo p = []).
  { destruct (todo p); [done|]. simpl in Ht. discriminate. }
  assert (Hrun : running p = []).
  { destruct (running p); [done|]. simpl in Hr. discriminate. }
  split; [done|]. split; [|done].
  destruct (queue p); [done|]. unfold worker_free in Hq. rewrite Hrun in Hq.
  simpl in Hq. change (Z.of_nat 0) with 0 in Hq.
  replace (0 <? threads) with true in Hq; [discriminate|].
  symmetry. apply Z.ltb_lt. lia.
Qed.

(** Whatever the scheduler decides, the pass takes moves of the pool. *)
Lemma run_pool_steps (net : network) (threads : Z) (fuel : nat)
    (sched : list tick) (p : pool) :
  pool_steps net threads p (run_pool net threads fuel sched p).
Proof.
  revert sched p. induction fuel as [|fuel IH]; intros sched p; simpl;
    [apply pool_steps_refl|].
  destruct (enabled threads p !! _) as [m|]; [|apply pool_steps_refl].
  destruct (exec net threads (now (hd tick0 sched)) m p) as [p'|] eqn:Hexec;
    [|apply pool_steps_refl].
  eapply pool_steps_step; [|apply IH]. by eexists _, _.
Qed.

(** With at least one worker thread the pass always drains: it ends, under
    every scheduler, with nothing left to submit, queued or running. *)
Lemma run_pool_drained (net : network) (threads : Z) (fuel : nat)
    (sched : list tick) (p : pool) :
  0 < threads -> (pool_measure p <= fuel)%nat ->
  drained (run_pool net threads fuel sched p).
Proof.
  intros Hthreads. revert sched p.
  induction fuel as [|fuel IH]; intros sched p Hfuel; simpl.
  - unfold pool_measure in Hfuel. unfold drained.
    destruct (todo p), (queue p), (running p); simpl in Hfuel; try lia; done.
  - destruct (enabled threads p) as [|m0 moves] eqn:Hen.
    { rewrite lookup_nil. by apply enabled_nil_drained in Hen. }
    set (k := (pick (hd tick0 sched) mod length (m0 :: moves))%nat).
    destruct (lookup_lt_is_Some_2 (m0 :: moves) k) as [m Hm].
    { apply Nat.mod_upper_bound. simpl. lia. }
    rewrite Hm.
    destruct (enabled_exec net threads (now (hd tick0 sched)) m p) as [p' Hp'].
    { rewrite Hen. by eapply list_elem_of_lookup_2. }
    rewrite Hp'. apply IH. apply exec_measure in Hp'. lia.
Qed.

(** ** A whole pass *)

Lemma add_seed_nodes_fields (s : seeder) :
  good_peers (add_seed_nodes s) = good_peers s
  /\ max_peers (add_seed_nodes s) = max_peers s
  /\ output_file (add_seed_nodes s) = output_file s
  /\ log (add_seed_nodes s) = log s.
Proof.
  done.
Qed.

(** With at least one thread [crawl_network] returns normally, and its
    result is what a run of the pool left in the seeder. *)
Lemma crawl_network_returns (net : network) (threads : Z) (sched : list tick)
    (s : seeder) :
  0 < threads ->
  exists p',
    pool_steps net threads
      (init_pool (add_seed_nodes (add_log [(INFO, StartingCrawl)] s))) p'
    /\ drained p'
    /\ crawl_network net threads sched s
       = (Ret tt, add_log [(INFO, CrawlCompleted (confirmed_count (reg p')))] (reg p')).
Proof.
  intros Hthreads. unfold crawl_network.
  replace (threads <=? 0) with false by (symmetry; apply Z.leb_gt; lia).
  eexists. split; [apply run_pool_steps|]. split; [|reflexivity].
  by apply run_pool_drained.
Qed.

Lemma pool_steps_passes_started (net : network) (threads : Z) (p p' : pool) :
  pool_steps net threads p p' ->
  passes_started (reg p') = passes_started (reg p).
Proof.
  induction 1 as [p|p p' p'' (now & m & H) _ IH]; [done|].
  rewrite IH. exec_cases H; simpl; try done.
  apply crawl_peer_passes_started.
Qed.

Lemma passes_started_add_log (entries : list log_entry) (s : seeder) :
  passes_started (add_log entries s)
  = (passes_started s + length (List.filter is_starting_crawl entries))%nat.
Proof.
  unfold passes_started, add_log. simpl. by rewrite List.filter_app, length_app.
Qed.

Lemma crawl_network_passes_started (net : network) (threads : Z)
    (sched : list tick) (s : seeder) :
  passes_started (snd (crawl_network net threads sched s))
  = S (passes_started s).
Proof.
  unfold crawl_network.
  destruct (threads <=? 0).
  - simpl. unfold passes_started.
    destruct (add_seed_nodes_fields (add_log [(INFO, StartingCrawl)] s))
      as (_ & _ & _ & ->).
    simpl. rewrite List.filter_app, length_app. simpl. lia.
  - simpl. rewrite passes_started_add_log. simpl.
    rewrite (pool_steps_passes_started net threads _ _ (run_pool_steps _ _ _ _ _)).
    simpl. unfold passes_started.
    destruct (add_seed_nodes_fields (add_log [(INFO, StartingCrawl)] s))
      as (_ & _ & _ & ->).
    simpl. rewrite List.filter_app, length_app. simpl. lia.
Qed.

Lemma crawl_network_good_peers (net : network) (threads : Z)
    (sched : list tick) (s : seeder) :
  good_peers s `prefix_of` good_peers (snd (crawl_network net threads sched s)).
Proof.
  unfold crawl_network. destruct (threads <=? 0); simpl; [done|].
  exact (ext_good _ _ _
           (pool_steps_extends net threads _ _ (run_pool_steps _ _ _ _ _))).
Qed.

(** ** The cap *)







(** C10.  With [max_peers <= 0] the test of line 131 holds at once: no
    state of the pass has dispatched anything or touched the seeder, and the
    pass returns with the confirmed peers it started with, none for a new
    seeder. *)
Theorem zero_cap_dispatches_nothing (net : network) (threads : Z)
    (sched : list tick) (s : seeder) (p' : pool) :
  max_peers s <= 0 ->
  0 < threads ->
  pool_steps net threads (init_pool s) p' ->
  dispatched p' = [] /\ queue p' = [] /\ running p' = [] /\ reg p' = s
  /\ (exists s', crawl_network net threads sched s = (Ret tt, s')
                 /\ good_peers s' = good_peers s)
  /\ good_peers (snd (crawl_network net threads sched
                        (new_seeder (output_file s) (max_peers s)))) = [].
Proof.
  intros Hmax Hthreads Hsteps.
  assert (Hpass : forall s0 p, max_peers s0 <= 0 ->
            pool_steps net threads (init_pool s0) p -> untouched s0 p).
  { intros s0 p H0 Hp.
    apply (pool_steps_invariant net threads (untouched s0)
             (fun q q' Hq => untouched_step net threads s0 q q' H0 Hq) _ _ Hp).
    by unfold untouched. }
  assert (Hrun : forall s0, max_peers s0 <= 0 ->
            exists s', crawl_network net threads sched s0 = (Ret tt, s')
                       /\ good_peers s' = good_peers s0).
  { intros s0 H0.
    destruct (crawl_network_returns net threads sched s0 Hthreads)
      as (p & Hp & _ & ->).
    eexists. split; [reflexivity|].
    apply Hpass in Hp as (_ & _ & _ & ->); done. }
  destruct (Hpass s p' Hmax Hsteps) as (Hq & Hr & Hd & Hreg).
  repeat (split; [done|]). split; [by apply Hrun|].
  destruct (Hrun (new_seeder (output_file s) (max_peers s)) Hmax)
    as (s' & Hs' & Hg).
  rewrite Hs'. simpl. by rewrite Hg.
Qed.

Lemma zero_cap_dispatches_nothing_witness :
  max_peers seeder_cap0 <= 0 /\ 0 < 50
  /\ dispatched (run_pool net_all_capable 50 12 submit_first
                   (init_pool seeder_cap0)) = []
  /\ good_peers (snd (crawl_network net_all_capable 50 submit_first
                        seeder_cap0)) = [].
Proof.
  assert (Hmax : max_peers seeder_cap0 <= 0) by (simpl; lia).
  assert (Hthreads : 0 < 50) by lia.
  pose proof (zero_cap_dispatches_nothing net_all_capable 50 submit_first
                seeder_cap0 _ Hmax Hthreads
                (run_pool_steps net_all_capable 50 12 submit_first
                   (init_pool seeder_cap0))) as (Hd & _ & _ & _ & _ & Hnew).
  split; [exact Hmax|]. split; [exact Hthreads|]. split; [exact Hd|exact Hnew].
Defined.

(** ** What a pass records *)

Lemma filter_capable_one (net : network) (a : string) :
  filter (fun a => capable net a = true) [a]
  = if capable net a then [a] else [].
Proof.
  rewrite filter_cons. destruct (decide (capable net a = true)) as [->|Hc];
    [done|]. by destruct (capable net a).
Qed.

Lemma peer_record_consistent (net : network) (now : Z) (a : string) :
  Forall (record_consistent net) (peer_record net now a)
  /\ addr <$> peer_record net now a
     = filter (fun a => capable net a = true) [a].
Proof.
  rewrite filter_capable_one. unfold peer_record, capable, record_consistent.
  destruct (parse_peer_addr a) as [[h n]|e] eqn:Hparse; [|done].
  destruct (fst (test_pq_handshake net h n)) eqn:Hprobe; [|done].
  split; [|done]. apply Forall_singleton. simpl.
  rewrite ?Hparse. simpl. repeat (split; [done|]).
  unfold capable. by rewrite Hparse, Hprobe.
Qed.

Lemma records_match_step (net : network) (threads : Z) (n0 : nat)
    (p p' : pool) :
  records_match net n0 p -> pool_step net threads p p' ->
  records_match net n0 p'.
Proof.
  unfold records_match, new_records.
  intros (Hlen & Hperm & Hall) (now & m & H). exec_cases H; simpl.
  - done.
  - split; [done|]. split; [|done].
    rewrite !filter_app, <- Hperm. solve_Permutation.
  - split; [done|]. split; [|done].
    try rewrite Hq in Hperm.
    change (peer :: q) with ([peer] ++ q) in Hperm.
    rewrite !filter_app in *. rewrite <- Hperm. solve_Permutation.
  - rewrite crawl_peer_good_peers.
    destruct (peer_record_consistent net now peer) as [Hrec Haddr].
    split; [rewrite length_app; lia|].
    rewrite drop_app_le by lia. split.
    + rewrite fmap_app, Haddr, <- Hperm.
      rewrite (delete_Permutation _ _ _ Hpeer) at 2.
      change (peer :: delete i (running p))
        with ([peer] ++ delete i (running p)).
      rewrite filter_app. solve_Permutation.
    + by apply Forall_app.
Qed.

Lemma whole_frontier_step (net : network) (threads : Z)
    (frontier : list string) (c0 : Z) (p p' : pool) :
  whole_frontier net frontier c0 p -> pool_step net threads p p' ->
  whole_frontier net frontier c0 p'.
Proof.
  unfold whole_frontier. intros (Hperm & Hc & Hroom) Hstep.
  destruct (pool_step_extends net threads p p' Hstep) as [_ Hmax Hcons _ _ _].
  split; [|by rewrite Hmax, Hcons].
  destruct Hstep as (now & m & H). exec_cases H; simpl; try done.
  - exfalso. apply Z.leb_le in Hcap.
    pose proof (count_capable_bounds net (queue p)).
    pose proof (count_capable_bounds net (running p)).
    pose proof (count_capable_bounds net (dispatched p)).
    apply lookup_lt_Some in Hpeer. apply Permutation_length in Hperm.
    rewrite length_app in Hperm. unfold conserved in Hc. lia.
  - rewrite <- Hperm. rewrite (delete_Permutation _ _ _ Hpeer) at 2.
    solve_Permutation.
Qed.

Lemma init_pool_records_match (net : network) (s : seeder) :
  records_match net (length (good_peers s)) (init_pool s).
Proof.
  unfold records_match, new_records. simpl. rewrite drop_all. done.
Qed.

(** What a drained pass has recorded: the capable addresses among the
    dispatched ones, each once. *)
Lemma drained_records (net : network) (threads : Z) (s : seeder) (p' : pool) :
  pool_steps net threads (init_pool s) p' -> drained p' ->
  good_peers (reg p')
  = good_peers s ++ new_records (length (good_peers s)) p'
  /\ addr <$> new_records (length (good_peers s)) p'
     ≡ₚ filter (fun a => capable net a = true) (dispatched p')
  /\ Forall (record_consistent net) (new_records (length (good_peers s)) p').
Proof.
  intros Hsteps (_ & Hq & Hr).
  assert (Hinv : records_match net (length (good_peers s)) p').
  { apply (pool_steps_invariant net threads _
             (records_match_step net threads _) _ _ Hsteps).
    apply init_pool_records_match. }
  destruct Hinv as (_ & Hperm & Hall).
  rewrite Hq, Hr in Hperm. simpl in Hperm. rewrite app_nil_r in Hperm.
  split; [|done].
  destruct (ext_good _ _ _ (pool_steps_extends _ _ _ _ Hsteps)) as [k Hk].
  simpl in Hk. unfold new_records. rewrite Hk. by rewrite drop_app_length.
Qed.

(** When the cap leaves room for the whole frontier, a drained pass has
    dispatched all of it. *)
Lemma drained_whole_frontier (net : network) (threads : Z) (s : seeder)
    (p' : pool) :
  confirmed_count s + Z.of_nat (length (elements (known_peers s)))
  <= max_peers s ->
  pool_steps net threads (init_pool s) p' -> drained p' ->
  dispatched p' ≡ₚ elements (known_peers s).
Proof.
  intros Hroom Hsteps (Ht & _ & _).
  assert (Hinv : whole_frontier net (elements (known_peers s))
                   (confirmed_count s) p').
  { apply (pool_steps_invariant net threads _
             (whole_frontier_step net threads _ _) _ _ Hsteps).
    unfold whole_frontier, conserved. simpl.
    change (count_capable net []) with 0. split; [done|]. split; [lia|done]. }
  destruct Hinv as (Hperm & _). by rewrite Ht, app_nil_r in Hperm.
Qed.

Lemma pool_steps_config (net : network) (threads : Z) (p p' : pool) :
  pool_steps net threads p p' ->
  known_peers (reg p') = known_peers (reg p)
  /\ max_peers (reg p') = max_peers (reg p)
  /\ output_file (reg p') = output_file (reg p).
Proof.
  induction 1 as [p|p p' p'' (now & m & H) _ (IHk & IHm & IHo)]; [done|].
  rewrite IHk, IHm, IHo. exec_cases H; simpl; try done.
  destruct (crawl_peer_config net now peer (reg p)) as (? & ? & ?). done.
Qed.

Lemma crawl_network_config (net : network) (threads : Z) (sched : list tick)
    (s : seeder) :
  known_peers (snd (crawl_network net threads sched s))
  = known_peers (add_seed_nodes s)
  /\ max_peers (snd (crawl_network net threads sched s)) = max_peers s
  /\ output_file (snd (crawl_network net threads sched s)) = output_file s.
Proof.
  unfold crawl_network. destruct (threads <=? 0); simpl; [done|].
  destruct (pool_steps_config net threads _ _
              (run_pool_steps net threads
                 (pool_measure (init_pool (add_seed_nodes
                    (add_log [(INFO, StartingCrawl)] s))))
                 sched
                 (init_pool (add_seed_nodes
                    (add_log [(INFO, StartingCrawl)] s)))))
    as (Hk & Hm & Ho).
  rewrite Hk, Hm, Ho. done.
Qed.

(** What a pass with room under the cap records, whatever the scheduler. *)
Lemma crawl_network_capable_records (net : network) (threads : Z)
    (sched : list tick) (s : seeder) :
  0 < threads ->
  confirmed_count s
  + Z.of_nat (length (elements (known_peers (add_seed_nodes s))))
  <= max_peers s ->
  fst (crawl_network net threads sched s) = Ret tt
  /\ take (length (good_peers s))
       (good_peers (snd (crawl_network net threads sched s)))
     = good_peers s
  /\ addr <$> drop (length (good_peers s))
                (good_peers (snd (crawl_network net threads sched s)))
     ≡ₚ filter (fun a => capable net a = true)
          (elements (known_peers (add_seed_nodes s)))
  /\ confirmed_count (snd (crawl_network net threads sched s))
     = confirmed_count s
       + count_capable net (elements (known_peers (add_seed_nodes s))).
Proof.
  intros Hthreads Hroom.
  destruct (crawl_network_returns net threads sched s Hthreads)
    as (p' & Hsteps & Hdrained & ->).
  set (s0 := add_seed_nodes (add_log [(INFO, StartingCrawl)] s)) in *.
  assert (Hroom0 : confirmed_count s0
                   + Z.of_nat (length (elements (known_peers s0)))
                   <= max_peers s0) by exact Hroom.
  pose proof (drained_whole_frontier net threads s0 p' Hroom0 Hsteps Hdrained)
    as Hall.
  destruct (drained_records net threads s0 p' Hsteps Hdrained)
    as (Hgood & Hperm & _).
  rewrite Hall in Hperm. unfold new_records in *.
  change (good_peers s0) with (good_peers s) in *.
  change (known_peers s0) with (known_peers (add_seed_nodes s)) in *.
  cbn [fst snd]. change (good_peers (add_log _ (reg p'))) with (good_peers (reg p')).
  split; [done|]. split; [|split; [exact Hperm|]].
  - rewrite Hgood at 1. by rewrite take_app_length.
  - unfold confirmed_count, count_capable.
    change (good_peers (add_log _ (reg p'))) with (good_peers (reg p')).
    rewrite Hgood, length_app, <- Hperm, length_fmap. lia.
Qed.

(** ** The confirmed set *)

Lemma records_of_app (a : string) (l k : list peer_info) :
  records_of a (l ++ k) = (records_of a l + records_of a k)%nat.
Proof.
  unfold records_of. by rewrite fmap_app, filter_app, length_app.
Qed.

Lemma count_not_in (a : string) (l : list string) :
  a ∉ l -> length (filter (fun x => x = a) l) = 0%nat.
Proof.
  induction l as [|x l IH]; intros Ha; [done|].
  apply not_elem_of_cons in Ha as [Hne Ha].
  rewrite filter_cons. destruct (decide (x = a)) as [->|_]; [done|].
  by apply IH.
Qed.

Lemma count_in_NoDup (a : string) (l : list string) :
  NoDup l -> a ∈ l -> length (filter (fun x => x = a) l) = 1%nat.
Proof.
  induction 1 as [|x l Hx Hl IH]; intros Ha; [by apply elem_of_nil in Ha|].
  rewrite filter_cons. destruct (decide (x = a)) as [->|Hne].
  - simpl. f_equal. by apply count_not_in.
  - apply IH. apply elem_of_cons in Ha as [->|Ha]; done.
Qed.

(** One call of [crawl_peer] on a capable address appends a record of it,
    whatever the list holds already. *)
Lemma crawl_peer_appends (net : network) (now : Z) (a : string) (s : seeder) :
  capable net a = true ->
  exists r,
    addr r = a
    /\ good_peers (snd (crawl_peer net now a s)) = good_peers s ++ [r]
    /\ records_of a (good_peers (snd (crawl_peer net now a s)))
       = S (records_of a (good_peers s)).
Proof.
  intros Hc. rewrite crawl_peer_good_peers.
  destruct (peer_record_capable net now a) as [[_ Hn]|(r & -> & Hr & _)];
    [congruence|].
  exists r. split; [done|]. split; [done|].
  rewrite records_of_app. unfold records_of at 2. simpl.
  rewrite filter_cons, Hr. destruct (decide (a = a)); [simpl; lia|done].
Qed.

Lemma add_seed_nodes_known_peers (s : seeder) :
  known_peers (add_seed_nodes s)
  = {["seed1.qtc.org:8333"; "seed2.qtc.org:8333"; "seed3.qtc.org:8333";
      "127.0.0.1:8333"]}%string ∪ known_peers s.
Proof.
  unfold add_seed_nodes, seeds, known_peers_add, set_known_peers.
  simpl. apply set_eq. intros x.
  rewrite !elem_of_union, !elem_of_singleton. tauto.
Qed.

(** A drained pass has appended one record for each capable address it
    dispatched, and none for any other address. *)
Lemma drained_records_of (net : network) (threads : Z) (s : seeder)
    (p' : pool) (a : string) :
  pool_steps net threads (init_pool s) p' -> drained p' ->
  records_of a (good_peers (reg p'))
  = (records_of a (good_peers s)
     + (if decide (a ∈ dispatched p' /\ capable net a = true) then 1 else 0))%nat.
Proof.
  intros Hsteps Hdrained.
  destruct (drained_records net threads s p' Hsteps Hdrained)
    as (Hgood & Hperm & _).
  rewrite Hgood, records_of_app. f_equal. unfold records_of. rewrite Hperm.
  assert (Hnodup : NoDup (dispatched p')).
  { assert (Hinv : dispatch_once (elements (known_peers s)) p').
    { apply (pool_steps_invariant net threads _
               (dispatch_once_step net threads _) _ _ Hsteps).
      split; simpl; [apply (NoDup_elements (C:=gset string))|done]. }
    destruct Hinv as [Hinv _]. by apply NoDup_app in Hinv as (? & _). }
  destruct (decide (a ∈ dispatched p' /\ capable net a = true)) as [[Hin Hc]|Hn].
  - apply count_in_NoDup; [by apply NoDup_filter|].
    by apply list_elem_of_filter.
  - apply count_not_in. rewrite list_elem_of_filter. tauto.
Qed.

(** A pass with room under the cap appends one record for each capable
    known peer, whatever the list holds already. *)
Lemma crawl_network_records_of (net : network) (threads : Z)
    (sched : list tick) (s : seeder) (a : string) :
  0 < threads ->
  confirmed_count s
  + Z.of_nat (length (elements (known_peers (add_seed_nodes s))))
  <= max_peers s ->
  a ∈ known_peers (add_seed_nodes s) -> capable net a = true ->
  records_of a (good_peers (snd (crawl_network net threads sched s)))
  = S (records_of a (good_peers s)).
Proof.
  intros Hthreads Hroom Hin Hc.
  destruct (crawl_network_capable_records net threads sched s Hthreads Hroom)
    as (_ & Htake & Hperm & _).
  rewrite <- (take_drop (length (good_peers s))
                (good_peers (snd (crawl_network net threads sched s)))).
  rewrite records_of_app, Htake. unfold records_of at 2. rewrite Hperm.
  rewrite count_in_NoDup; [lia| |].
  - apply NoDup_filter, (NoDup_elements (C:=gset string)).
  - apply list_elem_of_filter. split; [done|]. by apply elem_of_elements.
Qed.

(** Every pass of a continuous run whose cap leaves room for it gives each
    capable known peer a further record. *)
Lemma run_continuous_records_of (net : network) (interval : Z)
    (envs : list pass_env) (s : seeder) (disk : gmap string file) (a : string) :
  time_sleep interval = Ret tt ->
  Forall (fun en => io en = WriteSucceeds) envs ->
  confirmed_count s
  + Z.of_nat (length envs)
    * Z.of_nat (length (elements (known_peers (add_seed_nodes s))))
  <= max_peers s ->
  a ∈ known_peers (add_seed_nodes s) -> capable net a = true ->
  records_of a
    (good_peers (outcome_seeder (run_continuous net interval envs s disk)))
  = (records_of a (good_peers s) + length envs)%nat.
Proof.
  intros Hsleep Hok. revert s disk.
  induction Hok as [|env envs Hio Hok IH]; intros s disk Hroom Hin Hc;
    [simpl; lia|].
  assert (Hthreads : 0 < 50) by lia.
  assert (Hroom1 : confirmed_count s
            + Z.of_nat (length (elements (known_peers (add_seed_nodes s))))
            <= max_peers s).
  { rewrite length_cons in Hroom.
    pose proof (Nat2Z.is_nonneg
                  (length (elements (known_peers (add_seed_nodes s))))).
    nia. }
  destruct (crawl_network_capable_records net 50 (sched env) s Hthreads Hroom1)
    as (Hret & _ & _ & Hcount).
  pose proof (crawl_network_records_of net 50 (sched env) s a
                Hthreads Hroom1 Hin Hc) as Hrec.
  destruct (crawl_network_config net 50 (sched env) s) as (Hk & Hm & _).
  cbn [run_continuous].
  destruct (crawl_network net 50 (sched env) s) as [r s1].
  cbn [fst snd] in *. subst r. unfold save_peers. rewrite Hio, Hsleep.
  set (s2 := add_log _ (add_log _ s1)).
  assert (Hk2 : known_peers (add_seed_nodes s2) = known_peers (add_seed_nodes s)).
  { rewrite (add_seed_nodes_known_peers s2).
    change (known_peers s2) with (known_peers s1).
    rewrite Hk, (add_seed_nodes_known_peers s).
    apply set_eq. intros x. rewrite !elem_of_union. tauto. }
  rewrite (IH s2).
  - change (good_peers s2) with (good_peers s1). rewrite Hrec. simpl. lia.
  - rewrite Hk2. change (confirmed_count s2) with (confirmed_count s1).
    change (max_peers s2) with (max_peers s1). rewrite Hcount, Hm.
    pose proof (count_capable_bounds net
                  (elements (known_peers (add_seed_nodes s)))).
    rewrite length_cons in Hroom. nia.
  - by rewrite Hk2.
  - done.
Qed.

Lemma run_continuous_good_peers (net : network) (interval : Z)
    (envs : list pass_env) (s : seeder) (disk : gmap string file) :
  good_peers s
  `prefix_of` good_peers (outcome_seeder (run_continuous net interval envs s disk)).
Proof.
  revert s disk. induction envs as [|env envs IH]; intros s disk;
    [reflexivity|].
  pose proof (crawl_network_good_peers net 50 (sched env) s) as Hcrawl.
  cbn [run_continuous].
  destruct (crawl_network net 50 (sched env) s) as [[[]|e] s1];
    cbn [snd] in Hcrawl; [|exact Hcrawl].
  unfold save_peers. destruct (io env); cbn [outcome_seeder]; try exact Hcrawl.
  destruct (time_sleep interval); [|exact Hcrawl].
  etrans; [exact Hcrawl|].
  exact (IH (add_log _ (add_log _ s1)) _).
Qed.

(** C4 (as amended).  The confirmed list is append-only: every state of a
    pass, and every state of a continuous run, extends the list the seeder
    started with, so its size never decreases.  [crawl_peer] appends a
    record for every successful probe without looking for an earlier record
    of the address: whatever the list holds, the call appends the record of
    lines 103-110 and the address has one record more than before; so does
    every call a worker completes in a state of a pass.  The addresses are
    distinct in the first pass of a process, which starts from an empty
    list.  A pass that has drained has given every capable address it
    dispatched one record more than the seeder had before the pass, and in
    a continuous run whose cap leaves room for its passes every capable
    known peer has one record more after each pass. *)
Theorem good_peers_append_only (net : network) (threads interval : Z)
    (envs : list pass_env) (disk : gmap string file) (s : seeder) (p' : pool) :
  pool_steps net threads (init_pool s) p' ->
  good_peers s `prefix_of` good_peers (reg p')
  /\ confirmed_count s <= confirmed_count (reg p')
  /\ good_peers s
     `prefix_of` good_peers (outcome_seeder (run_continuous net interval envs s disk))
  /\ (good_peers s = [] -> NoDup (addr <$> good_peers (reg p')))
  /\ (forall now a h pt s0,
        parse_peer_addr a = Ret (h, pt) ->
        fst (test_pq_handshake net h pt) = true ->
        good_peers (snd (crawl_peer net now a s0))
        = good_peers s0
            ++ [{| addr := a; host := h; port := pt; pq_capable := true;
                   last_seen := now; success_count := 1 |}]
        /\ records_of a (good_peers (snd (crawl_peer net now a s0)))
           = S (records_of a (good_peers s0)))
  /\ (forall now i a,
        running p' !! i = Some a -> capable net a = true ->
        exists q r,
          exec net threads now (MFinish i) p' = Some q
          /\ addr r = a
          /\ good_peers (reg q) = good_peers (reg p') ++ [r]
          /\ records_of a (good_peers (reg q))
             = S (records_of a (good_peers (reg p'))))
  /\ (drained p' ->
      forall a,
        records_of a (good_peers (reg p'))
        = (records_of a (good_peers s)
           + (if decide (a ∈ dispatched p' /\ capable net a = true)
              then 1 else 0))%nat)
  /\ (time_sleep interval = Ret tt ->
      Forall (fun en => io en = WriteSucceeds) envs ->
      confirmed_count s
      + Z.of_nat (length envs)
        * Z.of_nat (length (elements (known_peers (add_seed_nodes s))))
      <= max_peers s ->
      forall a,
        a ∈ known_peers (add_seed_nodes s) -> capable net a = true ->
        records_of a
          (good_peers (outcome_seeder (run_continuous net interval envs s disk)))
        = (records_of a (good_peers s) + length envs)%nat).
Proof.
  intros Hsteps.
  pose proof (ext_good _ _ _ (pool_steps_extends _ _ _ _ Hsteps)) as Hpre.
  simpl in Hpre. split; [exact Hpre|].
  split; [apply prefix_length in Hpre; unfold confirmed_count; lia|].
  split; [apply run_continuous_good_peers|].
  split; [|split; [|split; [|split]]].
  - intros Hempty.
    assert (Hinv : recorded_once p').
    { apply (pool_steps_invariant net threads recorded_once
               (recorded_once_step net threads) _ _ Hsteps).
      unfold recorded_once, init_pool. simpl. rewrite Hempty. simpl.
      rewrite app_nil_r. apply (NoDup_elements (C:=gset string)). }
    unfold recorded_once in Hinv.
    apply NoDup_app in Hinv as (_ & _ & Hinv).
    apply NoDup_app in Hinv as (_ & _ & Hinv).
    by apply NoDup_app in Hinv as (_ & _ & Hinv).
  - intros now a h pt s0 Hparse Hprobe.
    assert (Hc : capable net a = true) by (unfold capable; by rewrite Hparse).
    destruct (crawl_peer_appends net now a s0 Hc) as (r & _ & _ & Hrec).
    split; [|exact Hrec].
    rewrite crawl_peer_good_peers. unfold peer_record.
    by rewrite Hparse, Hprobe.
  - intros now i a Hi Hc.
    destruct (crawl_peer_appends net now a (reg p') Hc) as (r & Hr & Hgood & Hrec).
    eexists _, r. cbn [exec]. rewrite Hi. split; [reflexivity|]. done.
  - intros Hdrained a. by apply (drained_records_of net threads).
  - intros Hsleep Hok Hroom a Hin Hc. by apply run_continuous_records_of.
Qed.

Lemma good_peers_append_only_witness :
  pool_steps net_all_capable 50 (init_pool (add_seed_nodes seeder_default))
    (run_pool net_all_capable 50 12 submit_first
       (init_pool (add_seed_nodes seeder_default)))
  /\ confirmed_count (add_seed_nodes seeder_default)
     <= confirmed_count
          (reg (run_pool net_all_capable 50 12 submit_first
                  (init_pool (add_seed_nodes seeder_default))))
  /\ records_of "127.0.0.1:8333"
       (good_peers
          (outcome_seeder
             (run_continuous net_all_capable 3600 [env_ok; env_ok]
                (add_seed_nodes seeder_default) ∅)))
     = 2%nat.
Proof.
  destruct (good_peers_append_only net_all_capable 50 3600 [env_ok; env_ok] ∅
              (add_seed_nodes seeder_default) _
              (run_pool_steps net_all_capable 50 12 submit_first
                 (init_pool (add_seed_nodes seeder_default))))
    as (_ & Hcount & _ & _ & _ & _ & _ & Hpasses).
  split; [apply run_pool_steps|]. split; [exact Hcount|].
  apply Hpasses.
  - reflexivity.
  - repeat constructor.
  - vm_compute. discriminate.
  - rewrite add_seed_nodes_known_peers, !elem_of_union, !elem_of_singleton.
    tauto.
  - vm_compute. reflexivity.
Defined.

(** C4 (as stated) fails.  After two passes of a continuous run over seeds
    that stay capable, every seed has two records. *)
Lemma good_peers_duplicates_counterexample :
  (exists s disk,
      run_continuous net_all_capable 3600 [env_ok; env_ok] seeder_default ∅
      = StillLooping s disk)
  /\ (addr <$> good_peers
        (outcome_seeder
           (run_continuous net_all_capable 3600 [env_ok; env_ok]
              seeder_default ∅))) !! 0%nat
     = (addr <$> good_peers
          (outcome_seeder
             (run_continuous net_all_capable 3600 [env_ok; env_ok]
                seeder_default ∅))) !! 4%nat
  /\ ~ NoDup (addr <$> good_peers
                (outcome_seeder
                   (run_continuous net_all_capable 3600 [env_ok; env_ok]
                      seeder_default ∅))).
Proof.
  assert (Hsame :
    (addr <$> good_peers
       (outcome_seeder
          (run_continuous net_all_capable 3600 [env_ok; env_ok]
             seeder_default ∅))) !! 0%nat
    = (addr <$> good_peers
         (outcome_seeder
            (run_continuous net_all_capable 3600 [env_ok; env_ok]
               seeder_default ∅))) !! 4%nat)
    by (vm_compute; reflexivity).
  split; [|split; [exact Hsame|]].
  - destruct (run_continuous net_all_capable 3600 [env_ok; env_ok]
                seeder_default ∅) as [s d|e s d] eqn:Hrun; [by eexists _, _|].
    exfalso. revert Hrun. vm_compute. discriminate.
  - intros Hnodup.
    assert (Hsome : is_Some ((addr <$> good_peers
       (outcome_seeder
          (run_continuous net_all_capable 3600 [env_ok; env_ok]
             seeder_default ∅))) !! 0%nat))
      by (vm_compute; eauto).
    destruct Hsome as [a Ha].
    pose proof (NoDup_lookup _ 0%nat 4%nat a Hnodup Ha) as Heq.
    rewrite <- Hsame in Heq. specialize (Heq Ha). discriminate.
Qed.

(** ** Malformed addresses *)

Lemma parse_peer_addr_error (peer_addr : string) (e : exn) :
  parse_peer_addr peer_addr = Exc e -> e = ValueError.
Proof.
  unfold parse_peer_addr.
  destruct (py_rsplit1 peer_addr) as [|h [|pt [|? ?]]]; try congruence.
  unfold py_int. destruct (match rstrip (lstrip pt) with
                           | EmptyString => _ | String _ _ => _ end);
    [destruct (MAX_STR_DIGITS <? digit_chars (rstrip (lstrip pt)))|];
    simpl; congruence.
Qed.

(** Addresses [crawl_peer] cannot read: no colon, a port that is a word, a
    port behind a control character that [int()] does not strip, an empty
    port, and a port of more than [MAX_STR_DIGITS] digits. *)
Lemma parse_peer_addr_malformed :
  parse_peer_addr "no-colon-here" = Exc ValueError
  /\ parse_peer_addr "seed1.qtc.org:http" = Exc ValueError
  /\ parse_peer_addr ("127.0.0.1:" ++ String (ascii_of_nat 28) "8333")
     = Exc ValueError
  /\ parse_peer_addr "127.0.0.1:" = Exc ValueError
  /\ parse_peer_addr
       ("127.0.0.1:" ++ string_of_list_ascii (repeat "1"%char 4301))
     = Exc ValueError.
Proof.
  repeat split; vm_compute; reflexivity.
Qed.

(** C7.  For an address that does not split into a host and a port, or whose
    port is not an integer, [crawl_peer] returns normally after logging the
    error and leaves the confirmed list alone; no state of a pass holds a
    record for that address that was not there before; and the pass drains
    and [crawl_network] returns under every scheduler. *)
Theorem malformed_address_tolerated (net : network) (threads now : Z)
    (sched : list tick) (peer_addr : string) (e : exn) (s : seeder)
    (p p' : pool) :
  parse_peer_addr peer_addr = Exc e ->
  0 < threads ->
  pool_steps net threads p p' ->
  crawl_peer net now peer_addr s
  = (Ret tt, add_log [(ERROR, ErrorCrawling peer_addr ValueError)] s)
  /\ good_peers (snd (crawl_peer net now peer_addr s)) = good_peers s
  /\ (forall r, r ∈ good_peers (reg p') -> addr r = peer_addr ->
                r ∈ good_peers (reg p))
  /\ drained (run_pool net threads (pool_measure p) sched p)
  /\ fst (crawl_network net threads sched s) = Ret tt.
Proof.
  intros Hparse Hthreads Hsteps.
  pose proof (parse_peer_addr_error _ _ Hparse) as ->.
  assert (Hcrawl : crawl_peer net now peer_addr s
                   = (Ret tt, add_log [(ERROR, ErrorCrawling peer_addr ValueError)] s)).
  { unfold crawl_peer, crawl_peer_try. by rewrite Hparse. }
  split; [exact Hcrawl|]. split; [by rewrite Hcrawl|]. split; [|split].
  - intros r Hr Ha.
    assert (Hinv : records_capable net (good_peers (reg p)) p').
    { apply (pool_steps_invariant net threads
               (records_capable net (good_peers (reg p)))
               (records_capable_step net threads _) _ _ Hsteps).
      intros r' Hr'. by left. }
    destruct (Hinv r Hr) as [Hold|Hcap]; [done|].
    unfold capable in Hcap. rewrite Ha, Hparse in Hcap. discriminate.
  - by apply run_pool_drained.
  - destruct (crawl_network_returns net threads sched s Hthreads)
      as (q & _ & _ & ->). done.
Qed.

Lemma malformed_address_tolerated_witness :
  parse_peer_addr "seed1.qtc.org:http" = Exc ValueError
  /\ 0 < 50
  /\ crawl_peer net_all_capable 0 "seed1.qtc.org:http" seeder_default
     = (Ret tt,
        add_log [(ERROR, ErrorCrawling "seed1.qtc.org:http" ValueError)]
          seeder_default)
  /\ drained (run_pool net_all_capable 50 (pool_measure pool_malformed)
                submit_first pool_malformed).
Proof.
  assert (Hparse : parse_peer_addr "seed1.qtc.org:http" = Exc ValueError)
    by (vm_compute; reflexivity).
  assert (Hthreads : 0 < 50) by lia.
  pose proof (malformed_address_tolerated net_all_capable 50 0 submit_first
                "seed1.qtc.org:http" ValueError seeder_default
                pool_malformed _ Hparse Hthreads
                (run_pool_steps net_all_capable 50 9 submit_first pool_malformed))
    as (Hcrawl & _ & _ & Hdrained & _).
  split; [exact Hparse|]. split; [exact Hthreads|].
  split; [exact Hcrawl|exact Hdrained].
Defined.

(** ** Seeding *)

Lemma known_peers_add_idem (a : string) (s : seeder) :
  known_peers_add a (known_peers_add a s) = known_peers_add a s.
Proof.
  unfold known_peers_add, set_known_peers. simpl. f_equal.
  apply set_eq. intros x. rewrite !elem_of_union. tauto.
Qed.

Lemma add_seed_nodes_idem (s : seeder) :
  add_seed_nodes (add_seed_nodes s) = add_seed_nodes s.
Proof.
  unfold add_seed_nodes, seeds, known_peers_add, set_known_peers. simpl.
  f_equal. apply set_eq. intros x. rewrite !elem_of_union. tauto.
Qed.

(** C8.  Adding an address twice is adding it once, so the frontier of the
    pass holds it in a single copy; and in every state of a pass no address
    has been dispatched twice, and every dispatched address is a known
    peer. *)
Theorem seeding_idempotent_dispatch_once (net : network) (threads : Z)
    (a : string) (s : seeder) (p' : pool) :
  pool_steps net threads (init_pool s) p' ->
  known_peers_add a (known_peers_add a s) = known_peers_add a s
  /\ add_seed_nodes (add_seed_nodes s) = add_seed_nodes s
  /\ NoDup (todo (init_pool (known_peers_add a (known_peers_add a s))))
  /\ a ∈ todo (init_pool (known_peers_add a (known_peers_add a s)))
  /\ NoDup (dispatched p')
  /\ (forall x, x ∈ dispatched p' -> x ∈ known_peers s).
Proof.
  intros Hsteps.
  split; [apply known_peers_add_idem|]. split; [apply add_seed_nodes_idem|].
  split; [cbn [init_pool todo]; apply NoDup_elements|]. split.
  { cbn [init_pool todo]. apply elem_of_elements. simpl.
    rewrite !elem_of_union, elem_of_singleton. by left. }
  assert (Hinv : dispatch_once (elements (known_peers s)) p').
  { apply (pool_steps_invariant net threads _
             (dispatch_once_step net threads _) _ _ Hsteps).
    split; simpl; [apply (NoDup_elements (C:=gset string))|done]. }
  destruct Hinv as [Hnodup Hsub]. split.
  - by apply NoDup_app in Hnodup as (? & _ & _).
  - intros x Hx. apply elem_of_elements, Hsub, elem_of_app. by left.
Qed.

Lemma seeding_idempotent_dispatch_once_witness :
  pool_steps net_all_capable 50 (init_pool (add_seed_nodes seeder_default))
    (run_pool net_all_capable 50 12 submit_first
       (init_pool (add_seed_nodes seeder_default)))
  /\ NoDup (dispatched
              (run_pool net_all_capable 50 12 submit_first
                 (init_pool (add_seed_nodes seeder_default)))).
Proof.
  split; [apply run_pool_steps|].
  apply (seeding_idempotent_dispatch_once net_all_capable 50 "127.0.0.1:8333"
           (add_seed_nodes seeder_default) _
           (run_pool_steps net_all_capable 50 12 submit_first
              (init_pool (add_seed_nodes seeder_default)))).
Defined.

(** ** The continuous run *)

(** A loop that is still going after the passes [pre] goes on from the
    state it has reached. *)
Lemma run_continuous_app (net : network) (interval : Z)
    (pre rest : list pass_env) (s s1 : seeder) (disk disk1 : gmap string file) :
  run_continuous net interval pre s disk = StillLooping s1 disk1 ->
  run_continuous net interval (pre ++ rest) s disk
  = run_continuous net interval rest s1 disk1.
Proof.
  revert s disk. induction pre as [|en pre IH]; intros s disk.
  - by intros [= -> ->].
  - cbn [run_continuous app].
    destruct (crawl_network net 50 (sched en) s) as [[[]|e] sc]; [|done].
    destruct (save_peers (save_time en) (io en) sc disk) as [[[[]|e] ss] dd];
      [|done].
    destruct (time_sleep interval); [|done]. apply IH.
Qed.

(** Such a loop has begun one pass for each element of [pre]. *)
Lemma run_continuous_still_passes (net : network) (interval : Z)
    (pre : list pass_env) (s s1 : seeder) (disk disk1 : gmap string file) :
  run_continuous net interval pre s disk = StillLooping s1 disk1 ->
  passes_started s1 = (passes_started s + length pre)%nat.
Proof.
  revert s disk. induction pre as [|en pre IH]; intros s disk.
  - intros [= -> ->]. simpl. lia.
  - cbn [run_continuous].
    pose proof (crawl_network_passes_started net 50 (sched en) s) as Hcount.
    destruct (crawl_network net 50 (sched en) s) as [[[]|e] sc]; [|done].
    cbn [snd] in Hcount. unfold save_peers.
    destruct (io en); try done.
    destruct (time_sleep interval); [|done].
    intros Hrun. apply IH in Hrun. rewrite Hrun, !passes_started_add_log.
    simpl. lia.
Qed.

(** An iteration whose write fails is the last one. *)
Lemma run_continuous_write_fails (net : network) (interval : Z) (env : pass_env)
    (envs : list pass_env) (e : exn) (s : seeder) (disk : gmap string file) :
  io env = OpenFails e \/ io env = DumpFails e ->
  exists s1 disk1,
    run_continuous net interval (env :: envs) s disk = Propagated e s1 disk1
    /\ passes_started s1 = S (passes_started s)
    /\ run_continuous net interval (env :: envs) s disk
       = run_continuous net interval [env] s disk.
Proof.
  intros Hio.
  assert (Hthreads : 0 < 50) by lia.
  destruct (crawl_network_returns net 50 (sched env) s Hthreads)
    as (q & _ & _ & Hret).
  pose proof (crawl_network_passes_started net 50 (sched env) s) as Hcount.
  rewrite Hret in Hcount. cbn [snd] in Hcount.
  cbn [run_continuous]. rewrite Hret. unfold save_peers.
  destruct Hio as [-> | ->]; eexists _, _; (split; [reflexivity|]);
    (split; [exact Hcount|reflexivity]).
Qed.

(** C6 (as amended).  [run_continuous] has no handler around [save_peers]:
    when the loop has reached a pass and the write of that pass fails, the
    exception leaves the function with that pass as the last one begun, and
    nothing scheduled after it is attempted. *)
Theorem persistence_failure_ends_loop (net : network) (interval : Z)
    (pre : list pass_env) (env : pass_env) (post : list pass_env) (e : exn)
    (s s1 : seeder) (disk disk1 : gmap string file) :
  run_continuous net interval pre s disk = StillLooping s1 disk1 ->
  io env = OpenFails e \/ io env = DumpFails e ->
  (exists s' disk',
      run_continuous net interval (pre ++ env :: post) s disk
      = Propagated e s' disk'
      /\ passes_started s' = (passes_started s + length pre + 1)%nat)
  /\ run_continuous net interval (pre ++ env :: post) s disk
     = run_continuous net interval (pre ++ [env]) s disk.
Proof.
  intros Hpre Hio.
  rewrite !(run_continuous_app net interval pre _ s s1 disk disk1 Hpre).
  apply run_continuous_still_passes in Hpre.
  destruct (run_continuous_write_fails net interval env post e s1 disk1 Hio)
    as (s' & d' & Hrun & Hcount & Hsame).
  split; [|exact Hsame]. exists s', d'. split; [exact Hrun|]. lia.
Qed.

Lemma persistence_failure_ends_loop_witness :
  exists s1 disk1,
    run_continuous net_all_capable 3600 [env_ok] seeder_default ∅
    = StillLooping s1 disk1
    /\ (io env_disk_error = OpenFails OSError
        \/ io env_disk_error = DumpFails OSError)
    /\ run_continuous net_all_capable 3600
         ([env_ok] ++ env_disk_error :: [env_ok]) seeder_default ∅
       = run_continuous net_all_capable 3600 ([env_ok] ++ [env_disk_error])
           seeder_default ∅.
Proof.
  destruct (run_continuous net_all_capable 3600 [env_ok] seeder_default ∅)
    as [s1 disk1|e s1 disk1] eqn:Hpre; [|vm_compute in Hpre; discriminate].
  assert (Hio : io env_disk_error = OpenFails OSError
                \/ io env_disk_error = DumpFails OSError)
    by (left; reflexivity).
  exists s1, disk1. split; [reflexivity|]. split; [exact Hio|].
  apply (persistence_failure_ends_loop net_all_capable 3600 [env_ok]
           env_disk_error [env_ok] OSError seeder_default s1 ∅ disk1 Hpre Hio).
Defined.

(** C6 (as stated) fails.  When the write of the first pass fails, the
    exception leaves [run_continuous]: one pass was begun, and the second
    scheduled pass never is. *)
Lemma persistence_failure_counterexample :
  (exists s disk,
      run_continuous net_all_capable 3600 [env_disk_error; env_ok]
        seeder_default ∅ = Propagated OSError s disk)
  /\ passes_started
       (outcome_seeder
          (run_continuous net_all_capable 3600 [env_disk_error; env_ok]
             seeder_default ∅)) = 1%nat.
Proof.
  split; [|vm_compute; reflexivity].
  destruct (run_continuous_write_fails net_all_capable 3600 env_disk_error
              [env_ok] OSError seeder_default ∅) as (s & d & -> & _);
    [by left|].
  by eexists _, _.
Qed.

(** * Further properties of the seeder *)

(** ** Addresses: splitting and the decimal port *)

Lemma split_last_colon_none (s : string) :
  no_colon s = true -> split_last_colon s = None.
Proof.
  unfold no_colon. induction s as [|c r IH]; simpl; [done|].
  intros [Hc Hr]%andb_true_iff. rewrite (IH Hr).
  by destruct (Ascii.eqb c colon).
Qed.

Lemma split_last_colon_app (h ps : string) :
  no_colon ps = true ->
  split_last_colon (h ++ String colon ps) = Some (h, ps).
Proof.
  intros Hps. induction h as [|c h IH]; simpl.
  - by rewrite (split_last_colon_none ps Hps).
  - by rewrite IH.
Qed.


Lemma digits_value_after_digit (acc : Z) (d : Decimal.uint) :
  digits_value acc true (NilEmpty.string_of_uint d) = Some (uint_value acc d).
Proof.
  revert acc. induction d; intros acc; simpl; try done; by rewrite IHd.
Qed.

Lemma digits_value_numeral (d : Decimal.uint) :
  d <> Decimal.Nil ->
  digits_value 0 false (NilEmpty.string_of_uint d) = Some (uint_value 0 d).
Proof.
  destruct d; intros Hd; [done|..]; simpl; apply digits_value_after_digit.
Qed.

Lemma uint_value_pos (acc : positive) (d : Decimal.uint) :
  uint_value (Z.pos acc) d = Z.pos (Pos.of_uint_acc d acc).
Proof.
  revert acc. induction d; intros acc; simpl; try done;
    rewrite <- IHd; f_equal; lia.
Qed.

Lemma uint_value_0 (d : Decimal.uint) :
  uint_value 0 d = Z.of_N (Pos.of_uint d).
Proof.
  induction d; simpl; try done; apply uint_value_pos.
Qed.

Lemma numeral_plain (d : Decimal.uint) :
  string_all (fun c => negb (is_space c) && negb (Ascii.eqb c colon))
    (NilEmpty.string_of_uint d) = true.
Proof.
  induction d; simpl; done.
Qed.

Lemma lstrip_plain (s : string) :
  string_all (fun c => negb (is_space c) && negb (Ascii.eqb c colon)) s = true ->
  lstrip s = s.
Proof.
  destruct s as [|c r]; simpl; [done|].
  intros [[Hc _]%andb_true_iff _]%andb_true_iff.
  by destruct (is_space c).
Qed.

Lemma rstrip_plain (s : string) :
  string_all (fun c => negb (is_space c) && negb (Ascii.eqb c colon)) s = true ->
  rstrip s = s.
Proof.
  induction s as [|c r IH]; simpl; [done|].
  intros [[Hc _]%andb_true_iff Hr]%andb_true_iff. rewrite (IH Hr).
  destruct r; [|done]. by destruct (is_space c).
Qed.

Lemma plain_no_colon (s : string) :
  string_all (fun c => negb (is_space c) && negb (Ascii.eqb c colon)) s = true ->
  no_colon s = true.
Proof.
  unfold no_colon. induction s as [|c r IH]; simpl; [done|].
  intros [[_ Hc]%andb_true_iff Hr]%andb_true_iff. by rewrite Hc, IH.
Qed.

Lemma numeral_of_int_plain (n : Z) :
  string_all (fun c => negb (is_space c) && negb (Ascii.eqb c colon))
    (NilZero.string_of_int (Z.to_int n)) = true.
Proof.
  destruct n as [|p|p]; simpl; [done| |].
  - destruct (Pos.to_uint p); try done; apply (numeral_plain (_ _)).
  - destruct (Pos.to_uint p); try done; apply (numeral_plain (_ _)).
Qed.

Lemma string_of_uint_nonnil (d : Decimal.uint) :
  d <> Decimal.Nil -> NilZero.string_of_uint d = NilEmpty.string_of_uint d.
Proof.
  by destruct d.
Qed.

Lemma signed_numeral (d : Decimal.uint) :
  d <> Decimal.Nil ->
  match NilEmpty.string_of_uint d with
  | String "-"%char r => digits_value 0 false r ≫= (fun v => Some (- v))
  | String "+"%char r => digits_value 0 false r
  | _ => digits_value 0 false (NilEmpty.string_of_uint d)
  end = Some (uint_value 0 d).
Proof.
  intros Hd. rewrite <- (digits_value_numeral d Hd). by destruct d.
Qed.

(** [int] reads the decimal numeral of [n] as [n], when the numeral is
    within the digit limit. *)
Lemma py_int_numeral (n : Z) :
  digit_chars (NilZero.string_of_int (Z.to_int n)) <= MAX_STR_DIGITS ->
  py_int (NilZero.string_of_int (Z.to_int n)) = Ret n.
Proof.
  intros Hcap. unfold py_int.
  rewrite (lstrip_plain _ (numeral_of_int_plain n)),
    (rstrip_plain _ (numeral_of_int_plain n)).
  replace (MAX_STR_DIGITS <? digit_chars (NilZero.string_of_int (Z.to_int n)))
    with false by (symmetry; apply Z.ltb_ge; lia).
  clear Hcap. destruct n as [|p|p]; [done| |].
  - pose proof (Unsigned.to_uint_nonnil p) as Hnil.
    cbn [Z.to_int NilZero.string_of_int].
    rewrite (string_of_uint_nonnil _ Hnil), (signed_numeral _ Hnil).
    by rewrite uint_value_0, DecimalPos.Unsigned.of_to.
  - pose proof (Unsigned.to_uint_nonnil p) as Hnil.
    cbn [Z.to_int NilZero.string_of_int].
    rewrite (string_of_uint_nonnil _ Hnil). cbn iota.
    rewrite (digits_value_numeral _ Hnil).
    by rewrite uint_value_0, DecimalPos.Unsigned.of_to.
Qed.

Lemma py_str_inv (n : Z) (ps : string) :
  py_str n = Ret ps ->
  ps = NilZero.string_of_int (Z.to_int n)
  /\ digit_chars ps <= MAX_STR_DIGITS.
Proof.
  unfold py_str.
  destruct (MAX_STR_DIGITS <? digit_chars (NilZero.string_of_int (Z.to_int n)))
    eqn:Hcap; [done|].
  intros [= <-]. apply Z.ltb_ge in Hcap. done.
Qed.

(** [int(str(n)) == n], whenever [str(n)] is produced. *)
Lemma py_int_py_str (n : Z) (ps : string) :
  py_str n = Ret ps -> py_int ps = Ret n.
Proof.
  intros [-> Hcap]%py_str_inv. by apply py_int_numeral.
Qed.

(** An address built as [f"{host}:{port}"] parses back to its parts. *)
Lemma parse_peer_addr_format (h : string) (n : Z) (ps : string) :
  py_str n = Ret ps ->
  parse_peer_addr (h ++ ":" ++ ps) = Ret (h, n).
Proof.
  intros Hps. unfold parse_peer_addr, py_rsplit1.
  change (h ++ ":" ++ ps)%string with (h ++ String colon ps)%string.
  assert (Hplain : no_colon ps = true).
  { destruct (py_str_inv n ps Hps) as [-> _].
    apply plain_no_colon, numeral_of_int_plain. }
  rewrite (split_last_colon_app h _ Hplain).
  by rewrite (py_int_py_str n ps Hps).
Qed.

Lemma seed_address_ok (seed : string) :
  seed_address seed = Ret (seed ++ ":8333")%string.
Proof.
  reflexivity.
Qed.


(** [int] does not skip the separators 28-31, and refuses a numeral of more
    than 4300 digits. *)
Lemma py_int_rejects :
  py_int (String (ascii_of_nat 28) "8333") = Exc ValueError
  /\ py_int (String (ascii_of_nat 160) "8333") = Ret 8333
  /\ py_int (string_of_list_ascii (repeat "1"%char 4301)) = Exc ValueError
  /\ exists v, py_int (string_of_list_ascii (repeat "1"%char 4300)) = Ret v.
Proof.
  split; [vm_compute; reflexivity|]. split; [vm_compute; reflexivity|].
  split; [vm_compute; reflexivity|].
  destruct (py_int (string_of_list_ascii (repeat "1"%char 4300))) as [v|e] eqn:H;
    [by eexists|vm_compute in H; discriminate].
Qed.


(** X2.  Formatting a host and an integer port as [f"{host}:{port}"], as
    [add_seed_nodes] does, and parsing the result as [crawl_peer] does gives
    the host and the port back, for every host and every integer that
    [str] formats (those of at most 4300 digits); in particular
    [int(str(n)) == n].  The address [add_seed_nodes] builds for a seed is
    the seed followed by [":8333"], and it parses to the seed and
    [DEFAULT_PORT]. *)
Theorem parse_peer_addr_roundtrip (h : string) (n : Z) (ps : string) :
  py_str n = Ret ps ->
  parse_peer_addr (h ++ ":" ++ ps) = Ret (h, n)
  /\ py_int ps = Ret n
  /\ digit_chars ps <= MAX_STR_DIGITS
  /\ seed_address h = Ret (h ++ ":8333")%string
  /\ parse_peer_addr (h ++ ":8333") = Ret (h, DEFAULT_PORT).
Proof.
  intros Hps. split; [by apply parse_peer_addr_format|].
  split; [by apply (py_int_py_str n)|].
  split; [by apply (py_str_inv n)|].
  split; [apply seed_address_ok|].
  by apply (parse_peer_addr_format h DEFAULT_PORT "8333").
Qed.

Lemma parse_peer_addr_roundtrip_witness :
  py_str 65535 = Ret "65535"%string
  /\ parse_peer_addr ("seed1.qtc.org" ++ ":" ++ "65535")
     = Ret ("seed1.qtc.org"%string, 65535).
Proof.
  assert (Hps : py_str 65535 = Ret "65535"%string) by (vm_compute; reflexivity).
  split; [exact Hps|].
  apply (parse_peer_addr_roundtrip "seed1.qtc.org" 65535 "65535" Hps).
Defined.

(** ** The prober, case by case *)

Lemma hello_encoded :
  exists msg, create_pq_handshake None = Ret msg /\ length msg = 1608%nat.
Proof.
  eexists. split; [vm_compute; reflexivity|]. vm_compute. reflexivity.
Qed.

(** The result of a probe for each behaviour of the peer. *)
Lemma test_pq_handshake_cases (net : network) (h : string) (pt : Z) :
  let r := test_pq_handshake net h pt in
  (fst r = true
   <-> 0 <= pt <= 65535
       /\ exists resp, net h pt = Responds resp /\ accepting resp)
  /\ (sent (snd r) = None
      \/ 0 <= pt <= 65535
         /\ exists msg, create_pq_handshake None = Ret msg
                        /\ sent (snd r) = Some msg).
Proof.
  destruct hello_encoded as (msg & Hmsg & _).
  unfold test_pq_handshake, test_pq_handshake_try, probe_bind, probe_lift,
    socket_socket, sock_connect, sock_send, sock_recv, sock_close, probe_log,
    probe_ret, probe_world0.
  rewrite Hmsg.
  destruct ((0 <=? pt) && (pt <=? 65535)) eqn:Hrange.
  - apply andb_true_iff in Hrange as [H0%Z.leb_le H1%Z.leb_le].
    replace ((pt <? - 2147483648) || (2147483647 <? pt)) with false
      by (symmetry; apply orb_false_iff; split; apply Z.ltb_ge; lia).
    destruct (net h pt) as [e|e|e|e|e|e|resp]; cbv iota beta zeta; simpl.
    1-6: (split; [split; [discriminate|by intros (_ & resp & [=] & _)]|]).
    + by left.
    + by left.
    + by left.
    + by left.
    + by left.
    + right. eauto.
    + destruct (response_accepted_total (take 4096 resp)) as [b Hb].
      pose proof (response_accepted_true (take 4096 resp)) as Hacc.
      rewrite accepting_take in Hacc. rewrite Hb in *.
      destruct b; simpl.
      * split; [|right; eauto]. split; [|done].
        intros _. split; [lia|]. exists resp. split; [done|]. by apply Hacc.
      * split; [|right; eauto]. split; [discriminate|].
        intros (_ & resp' & [= <-] & Ha). apply Hacc in Ha. discriminate.
  - assert (Hout : ~ (0 <= pt <= 65535)).
    { intros [H0%Z.leb_le H1%Z.leb_le]. by rewrite H0, H1 in Hrange. }
    destruct (net h pt) as [e|e|e|e|e|e|resp];
      destruct ((pt <? - 2147483648) || (2147483647 <? pt));
      cbv iota beta zeta; simpl;
      (split; [split; [discriminate|intros [? _]; done]|by left]).
Qed.


(** X4.  A probe sends nothing at all, or exactly the 1608-byte hello built
    from the all-zero placeholder, and the latter only to a port within
    0..65535: an out-of-range port never reaches the network. *)
Theorem test_pq_handshake_sends_hello (net : network) (h : string) (pt : Z) :
  sent (snd (test_pq_handshake net h pt)) = None
  \/ 0 <= pt <= 65535
     /\ exists msg, create_pq_handshake None = Ret msg
                    /\ sent (snd (test_pq_handshake net h pt)) = Some msg
                    /\ length msg = 1608%nat.
Proof.
  destruct (test_pq_handshake_cases net h pt) as [_ [Hnone|(Hr & msg & Hm & Hs)]];
    [by left|].
  right. split; [done|]. exists msg. split; [done|]. split; [done|].
  destruct hello_encoded as (msg' & Hm' & Hlen). congruence.
Qed.

(** ** One call of [crawl_peer], in full *)

(** X5.  [crawl_peer] appends one record, holding the address, the parsed
    host and port, [pq_capable = True], the clock and [success_count = 1],
    when the address parses, the port is within 0..65535 and the peer
    answers with an accepted buffer; in every other case it leaves the
    confirmed list as it was.  It never changes [known_peers], [max_peers]
    or [output_file], and it returns normally. *)
Theorem crawl_peer_appends_iff (net : network) (now : Z) (a : string)
    (s : seeder) :
  ((exists h n resp,
       parse_peer_addr a = Ret (h, n) /\ 0 <= n <= 65535
       /\ net h n = Responds resp /\ accepting resp
       /\ good_peers (snd (crawl_peer net now a s))
          = good_peers s
            ++ [{| addr := a; host := h; port := n; pq_capable := true;
                   last_seen := now; success_count := 1 |}])
   \/ (good_peers (snd (crawl_peer net now a s)) = good_peers s
       /\ ~ (exists h n resp,
               parse_peer_addr a = Ret (h, n) /\ 0 <= n <= 65535
               /\ net h n = Responds resp /\ accepting resp)))
  /\ known_peers (snd (crawl_peer net now a s)) = known_peers s
  /\ max_peers (snd (crawl_peer net now a s)) = max_peers s
  /\ output_file (snd (crawl_peer net now a s)) = output_file s
  /\ fst (crawl_peer net now a s) = Ret tt.
Proof.
  destruct (crawl_peer_config net now a s) as (Hmax & Hkp & Hout).
  split; [|by rewrite Hmax, Hkp, Hout, crawl_peer_returns].
  rewrite crawl_peer_good_peers. unfold peer_record.
  destruct (parse_peer_addr a) as [[h n]|e] eqn:Hparse.
  - pose proof (proj1 (test_pq_handshake_cases net h n)) as Hiff.
    destruct (fst (test_pq_handshake net h n)).
    + destruct (proj1 Hiff eq_refl) as (Hr & resp & Hresp & Hacc).
      left. by exists h, n, resp.
    + right. split; [by rewrite app_nil_r|].
      intros (h' & n' & resp & [= <- <-] & Hr & Hresp & Hacc).
      assert (false = true) by (apply Hiff; eauto). discriminate.
  - right. split; [by rewrite app_nil_r|].
    by intros (h' & n' & resp & [=] & _).
Qed.

(** ** More invariants of a pass *)

(** X8.  When a pass has drained, the records it appended are exactly the
    capable addresses among those it dispatched, each once (in some order);
    the earlier records are untouched; and every appended record holds the
    host and port its address parses to, [pq_capable = True] and
    [success_count = 1]. *)
Theorem recorded_are_capable_dispatched (net : network) (threads : Z)
    (s : seeder) (p' : pool) :
  pool_steps net threads (init_pool s) p' ->
  drained p' ->
  good_peers (reg p')
  = good_peers s ++ new_records (length (good_peers s)) p'
  /\ addr <$> new_records (length (good_peers s)) p'
     ≡ₚ filter (fun a => capable net a = true) (dispatched p')
  /\ Forall (record_consistent net) (new_records (length (good_peers s)) p').
Proof.
  apply drained_records.
Qed.

Lemma recorded_are_capable_dispatched_witness :
  pool_steps net_three_capable 3 (init_pool (add_seed_nodes seeder_default))
    (run_pool net_three_capable 3 12 submit_first
       (init_pool (add_seed_nodes seeder_default)))
  /\ drained (run_pool net_three_capable 3 12 submit_first
                (init_pool (add_seed_nodes seeder_default)))
  /\ Forall (record_consistent net_three_capable)
       (new_records (length (good_peers (add_seed_nodes seeder_default)))
          (run_pool net_three_capable 3 12 submit_first
             (init_pool (add_seed_nodes seeder_default)))).
Proof.
  assert (Hsteps := run_pool_steps net_three_capable 3 12 submit_first
                      (init_pool (add_seed_nodes seeder_default))).
  assert (Hdrained : drained (run_pool net_three_capable 3 12 submit_first
                                (init_pool (add_seed_nodes seeder_default)))).
  { apply run_pool_drained; [lia|]. vm_compute. lia. }
  split; [exact Hsteps|]. split; [exact Hdrained|].
  apply (recorded_are_capable_dispatched net_three_capable 3
           (add_seed_nodes seeder_default) _ Hsteps Hdrained).
Defined.

(** X9.  When the cap leaves room for every known peer, a drained pass has
    dispatched every known peer once and has recorded exactly the capable
    ones: the outcome does not depend on the scheduler, up to the order of
    the records. *)
Theorem pass_confirms_capable_frontier (net : network) (threads : Z)
    (s : seeder) (p' : pool) :
  confirmed_count s + Z.of_nat (length (elements (known_peers s)))
  <= max_peers s ->
  pool_steps net threads (init_pool s) p' ->
  drained p' ->
  dispatched p' ≡ₚ elements (known_peers s)
  /\ addr <$> new_records (length (good_peers s)) p'
     ≡ₚ filter (fun a => capable net a = true) (elements (known_peers s))
  /\ confirmed_count (reg p')
     = confirmed_count s + count_capable net (elements (known_peers s))
  /\ (forall a, a ∈ (addr <$> new_records (length (good_peers s)) p')
                <-> a ∈ known_peers s /\ capable net a = true).
Proof.
  intros Hroom Hsteps Hdrained.
  pose proof (drained_whole_frontier net threads s p' Hroom Hsteps Hdrained)
    as Hall.
  destruct (drained_records net threads s p' Hsteps Hdrained)
    as (Hgood & Hperm & _).
  rewrite Hall in Hperm.
  split; [exact Hall|]. split; [exact Hperm|]. split.
  - unfold confirmed_count, count_capable. rewrite Hgood, length_app.
    rewrite <- Hperm, length_fmap. lia.
  - intros a. rewrite Hperm, list_elem_of_filter, elem_of_elements. tauto.
Qed.

Lemma pass_confirms_capable_frontier_witness :
  confirmed_count (add_seed_nodes seeder_default)
  + Z.of_nat (length (elements (known_peers (add_seed_nodes seeder_default))))
  <= max_peers (add_seed_nodes seeder_default)
  /\ confirmed_count
       (reg (run_pool net_three_capable 3 12 submit_first
               (init_pool (add_seed_nodes seeder_default))))
     = confirmed_count (add_seed_nodes seeder_default)
       + count_capable net_three_capable
           (elements (known_peers (add_seed_nodes seeder_default))).
Proof.
  assert (Hroom : confirmed_count (add_seed_nodes seeder_default)
            + Z.of_nat (length (elements
                 (known_peers (add_seed_nodes seeder_default))))
            <= max_peers (add_seed_nodes seeder_default))
    by (vm_compute; discriminate).
  assert (Hsteps := run_pool_steps net_three_capable 3 12 submit_first
                      (init_pool (add_seed_nodes seeder_default))).
  assert (Hdrained : drained (run_pool net_three_capable 3 12 submit_first
                                (init_pool (add_seed_nodes seeder_default)))).
  { apply run_pool_drained; [lia|]. vm_compute. lia. }
  split; [exact Hroom|].
  apply (pass_confirms_capable_frontier net_three_capable 3
           (add_seed_nodes seeder_default) _ Hroom Hsteps Hdrained).
Defined.

(** ** A pass as a whole, and what it leaves alone *)

(** X10.  [crawl_network] with at least one thread, on a seeder whose cap
    leaves room for every known peer and the four seeds, returns normally
    and, under every scheduler, keeps the earlier records and appends
    exactly one record for each capable known peer. *)
Theorem crawl_network_confirms_capable (net : network) (threads : Z)
    (sched : list tick) (s : seeder) :
  0 < threads ->
  confirmed_count s
  + Z.of_nat (length (elements (known_peers (add_seed_nodes s))))
  <= max_peers s ->
  fst (crawl_network net threads sched s) = Ret tt
  /\ take (length (good_peers s))
       (good_peers (snd (crawl_network net threads sched s)))
     = good_peers s
  /\ addr <$> drop (length (good_peers s))
                (good_peers (snd (crawl_network net threads sched s)))
     ≡ₚ filter (fun a => capable net a = true)
          (elements (known_peers (add_seed_nodes s)))
  /\ confirmed_count (snd (crawl_network net threads sched s))
     = confirmed_count s
       + count_capable net (elements (known_peers (add_seed_nodes s))).
Proof.
  apply crawl_network_capable_records.
Qed.

Lemma crawl_network_confirms_capable_witness :
  0 < 50
  /\ confirmed_count seeder_default
     + Z.of_nat (length (elements (known_peers (add_seed_nodes seeder_default))))
     <= max_peers seeder_default
  /\ fst (crawl_network net_three_capable 50 submit_first seeder_default)
     = Ret tt
  /\ confirmed_count
       (snd (crawl_network net_three_capable 50 submit_first seeder_default))
     = confirmed_count seeder_default
       + count_capable net_three_capable
           (elements (known_peers (add_seed_nodes seeder_default))).
Proof.
  assert (Hthreads : 0 < 50) by lia.
  assert (Hroom : confirmed_count seeder_default
            + Z.of_nat (length (elements
                 (known_peers (add_seed_nodes seeder_default))))
            <= max_peers seeder_default)
    by (vm_compute; discriminate).
  destruct (crawl_network_confirms_capable net_three_capable 50 submit_first
              seeder_default Hthreads Hroom) as (Hret & _ & _ & Hcount).
  split; [exact Hthreads|]. split; [exact Hroom|].
  split; [exact Hret|exact Hcount].
Defined.

(** X11.  A pass never changes [max_peers] or [output_file], and it leaves
    [known_peers] equal to what it was before together with the four seed
    addresses; this holds whether [crawl_network] returns or raises, and a
    second pass adds no further address. *)
Theorem crawl_network_keeps_configuration (net : network) (threads : Z)
    (sched sched' : list tick) (s : seeder) :
  max_peers (snd (crawl_network net threads sched s)) = max_peers s
  /\ output_file (snd (crawl_network net threads sched s)) = output_file s
  /\ known_peers (snd (crawl_network net threads sched s))
     = {["seed1.qtc.org:8333"; "seed2.qtc.org:8333"; "seed3.qtc.org:8333";
         "127.0.0.1:8333"]}%string ∪ known_peers s
  /\ known_peers
       (snd (crawl_network net threads sched'
               (snd (crawl_network net threads sched s))))
     = known_peers (snd (crawl_network net threads sched s)).
Proof.
  destruct (crawl_network_config net threads sched s) as (Hk & Hm & Ho).
  destruct (crawl_network_config net threads sched'
              (snd (crawl_network net threads sched s))) as (Hk' & _ & _).
  assert (Hseeds : forall s0, known_peers (add_seed_nodes s0)
            = {["seed1.qtc.org:8333"; "seed2.qtc.org:8333";
                "seed3.qtc.org:8333"; "127.0.0.1:8333"]}%string
              ∪ known_peers s0).
  { intros s0. unfold add_seed_nodes, seeds, known_peers_add, set_known_peers.
    simpl. apply set_eq. intros x.
    rewrite !elem_of_union, !elem_of_singleton. tauto. }
  split; [exact Hm|]. split; [exact Ho|]. split.
  - by rewrite Hk, Hseeds.
  - rewrite Hk', Hseeds, Hk, Hseeds. apply set_eq. intros x.
    rewrite !elem_of_union. tauto.
Qed.

(** With a thread count of zero or less [crawl_network] raises
    [ValueError] before any probe. *)
Lemma crawl_network_without_threads (net : network) (threads : Z)
    (sched : list tick) (s : seeder) :
  threads <= 0 ->
  crawl_network net threads sched s
  = (Exc ValueError, add_seed_nodes (add_log [(INFO, StartingCrawl)] s)).
Proof.
  intros Hthreads. unfold crawl_network.
  replace (threads <=? 0) with true by (symmetry; apply Z.leb_le; lia).
  done.
Qed.

(** ** Persistence *)

(** X12.  [save_peers] touches one path only: whatever the file system does,
    every path other than [output_file] holds what it held before, and the
    confirmed list is unchanged.  When the write succeeds the output file
    holds one document with the clock, the confirmed list and its length as
    [total_peers], replacing what was there (written twice, it holds the
    second document); when [open] fails nothing is written at all. *)
Theorem save_peers_only_output (now now' : Z) (io : io_behaviour) (e : exn)
    (s : seeder) (disk : gmap string file) (path : string) :
  path <> output_file s ->
  snd (save_peers now io s disk) !! path = disk !! path
  /\ good_peers (snd (fst (save_peers now io s disk))) = good_peers s
  /\ snd (save_peers now WriteSucceeds s disk) !! output_file s
     = Some (Document {| timestamp := now;
                         total_peers := Z.of_nat (length (good_peers s));
                         peers := good_peers s |})
  /\ snd (save_peers now' WriteSucceeds s
            (snd (save_peers now WriteSucceeds s disk)))
     = snd (save_peers now' WriteSucceeds s disk)
  /\ save_peers now (OpenFails e) s disk = (Exc e, s, disk).
Proof.
  intros Hpath. unfold save_peers. split; [|split; [|split; [|split]]].
  - destruct io; simpl; by rewrite ?lookup_insert_ne.
  - by destruct io.
  - simpl. by rewrite lookup_insert_eq.
  - simpl. by rewrite insert_insert_eq.
  - done.
Qed.

Lemma save_peers_only_output_witness :
  "other.json"%string <> output_file seeder_default
  /\ snd (save_peers 7 (DumpFails OSError) seeder_default
            (<["other.json"%string := Partial]> ∅)) !! "other.json"%string
     = (<["other.json"%string := Partial]> ∅ : gmap string file)
         !! "other.json"%string.
Proof.
  assert (H : "other.json"%string <> output_file seeder_default)
    by (vm_compute; discriminate).
  split; [exact H|].
  apply (save_peers_only_output 7 7 (DumpFails OSError) OSError seeder_default
           (<["other.json"%string := Partial]> ∅) "other.json" H).
Defined.

(** ** The continuous run, pass by pass *)







(** ** [main] *)

Lemma seed_frontier_size (o : string) (m : Z) :
  length (elements (known_peers (add_seed_nodes (new_seeder o m)))) = 4%nat.
Proof.
  change (known_peers (add_seed_nodes (new_seeder o m)))
    with (known_peers (add_seed_nodes seeder_default)).
  vm_compute. reflexivity.
Qed.

(** X15.  A single-shot run with at least one thread, a cap of at least 4
    and a write that succeeds returns after exactly one pass; the output
    file then holds a document whose peers are one record for each capable
    seed (in some order) and whose [total_peers] is their number, and no
    other path is written.  The interval plays no part. *)
Theorem main_single_shot (net : network) (o : string) (m t i : Z)
    (env : pass_env) (envs : list pass_env) (disk : gmap string file) :
  0 < t ->
  4 <= m ->
  io env = WriteSucceeds ->
  exists s disk',
    main net (mk_args o m t false i) (env :: envs) disk = Exited s disk'
    /\ passes_started s = 1%nat
    /\ disk' !! o
       = Some (Document {| timestamp := save_time env;
                           total_peers := Z.of_nat (length (good_peers s));
                           peers := good_peers s |})
    /\ addr <$> good_peers s
       ≡ₚ filter (fun a => capable net a = true)
            (elements (known_peers (add_seed_nodes (new_seeder o m))))
    /\ (forall path, path <> o -> disk' !! path = disk !! path).
Proof.
  intros Ht Hm Hio.
  assert (Hroom : confirmed_count (new_seeder o m)
            + Z.of_nat (length (elements
                 (known_peers (add_seed_nodes (new_seeder o m)))))
            <= max_peers (new_seeder o m)).
  { rewrite seed_frontier_size. simpl. unfold confirmed_count. simpl. lia. }
  destruct (crawl_network_capable_records net t (sched env) (new_seeder o m)
              Ht Hroom) as (Hret & _ & Hperm & _).
  pose proof (crawl_network_passes_started net t (sched env) (new_seeder o m))
    as Hcount.
  destruct (crawl_network_config net t (sched env) (new_seeder o m))
    as (_ & _ & Hout).
  unfold main. cbn [arg_continuous arg_output arg_max_peers arg_threads].
  destruct (crawl_network net t (sched env) (new_seeder o m)) as [r s1].
  cbn [fst snd] in *. subst r. unfold save_peers. rewrite Hio.
  simpl in Hout. rewrite Hout.
  eexists _, _. split; [reflexivity|].
  split; [by rewrite passes_started_add_log, Hcount|].
  split; [apply lookup_insert_eq|]. split; [exact Hperm|].
  intros path Hpath. by apply lookup_insert_ne.
Qed.

Lemma main_single_shot_witness :
  0 < 50 /\ 4 <= 1000 /\ io env_ok = WriteSucceeds
  /\ exists s disk',
       main net_three_capable (mk_args "qtc_peers.json" 1000 50 false 3600)
         [env_ok] ∅ = Exited s disk'
       /\ passes_started s = 1%nat
       /\ disk' !! "qtc_peers.json"%string
          = Some (Document {| timestamp := save_time env_ok;
                              total_peers := Z.of_nat (length (good_peers s));
                              peers := good_peers s |})
       /\ addr <$> good_peers s
          ≡ₚ filter (fun a => capable net_three_capable a = true)
               (elements (known_peers
                  (add_seed_nodes (new_seeder "qtc_peers.json" 1000))))
       /\ (forall path, path <> "qtc_peers.json"%string ->
                        disk' !! path = (∅ : gmap string file) !! path).
Proof.
  assert (Ht : 0 < 50) by lia.
  assert (Hm : 4 <= 1000) by lia.
  assert (Hio : io env_ok = WriteSucceeds) by reflexivity.
  split; [exact Ht|]. split; [exact Hm|]. split; [exact Hio|].
  apply (main_single_shot net_three_capable "qtc_peers.json" 1000 50 3600
           env_ok [] ∅ Ht Hm Hio).
Defined.

(** X16.  The thread count of the command line only reaches the single-shot
    branch.  In continuous mode the outcome is the same for every thread
    count, valid or not; a single-shot run with a thread count of zero or
    less raises [ValueError] before any probe and writes no file. *)
Theorem main_thread_count (net : network) (o : string) (m t t' i : Z)
    (env : pass_env) (envs : list pass_env) (disk : gmap string file) :
  t <= 0 ->
  main net (mk_args o m t true i) (env :: envs) disk
  = main net (mk_args o m t' true i) (env :: envs) disk
  /\ exists s,
       main net (mk_args o m t false i) (env :: envs) disk
       = Raised ValueError s disk
       /\ good_peers s = []
       /\ passes_started s = 1%nat.
Proof.
  intros Ht. split; [reflexivity|].
  unfold main. cbn [arg_continuous arg_output arg_max_peers arg_threads].
  rewrite (crawl_network_without_threads net t (sched env) _ Ht).
  by eexists.
Qed.

Lemma main_thread_count_witness :
  0 <= 0
  /\ main net_all_capable (mk_args "qtc_peers.json" 1000 0 true 3600)
       [env_ok] ∅
     = main net_all_capable (mk_args "qtc_peers.json" 1000 8 true 3600)
         [env_ok] ∅
  /\ exists s,
       main net_all_capable (mk_args "qtc_peers.json" 1000 0 false 3600)
         [env_ok] ∅ = Raised ValueError s ∅
       /\ good_peers s = []
       /\ passes_started s = 1%nat.
Proof.
  assert (Ht : 0 <= 0) by lia.
  split; [exact Ht|].
  apply (main_thread_count net_all_capable "qtc_peers.json" 1000 0 8 3600
           env_ok [] ∅ Ht).
Defined.

(** ** The hello, decoded *)

Lemma Z_of_byte_range (b : byte) : 0 <= Z_of_byte b < 256.
Proof.
  unfold Z_of_byte. pose proof (Byte.to_N_bounded b). lia.
Qed.

Lemma Z_of_byte_zero (b : byte) : Z_of_byte b = 0 <-> b = x00.
Proof.
  split; [|by intros ->]. unfold Z_of_byte. intros Hz.
  assert (Hn : Byte.to_N b = Byte.to_N x00) by (simpl; lia).
  apply (f_equal Byte.of_N) in Hn. rewrite !Byte.of_to_N in Hn. congruence.
Qed.

Lemma create_pq_handshake_encoded (ct : bytes) :
  Z.of_nat (length ct) <= 65535 ->
  exists lo hi : byte,
    create_pq_handshake (Some ct)
    = Ret (QTC_MAGIC_BYTES ++ [x01; x00; lo; hi] ++ ct ++ repeat x00 32)
    /\ Z_of_byte lo + 256 * Z_of_byte hi = Z.of_nat (length ct).
Proof.
  intros Hlen.
  destruct (struct_pack_H_value (Z.of_nat (length ct))) as (lo & hi & Hp & Hv);
    [lia|].
  exists lo, hi. split; [|exact Hv].
  unfold create_pq_handshake.
  change (struct_pack_H QTC_VERSION) with (Ret (A:=list byte) [x01; x00]).
  simpl result_bind. rewrite Hp. simpl result_bind.
  cbv zeta. rewrite <- ?app_assoc. reflexivity.
Qed.

(** X17.  For a ciphertext of at most 65535 bytes the hello is 40 bytes
    longer than the ciphertext; its bytes 6 and 7 decode, low byte first, to
    the ciphertext length, and the ciphertext itself is read back from
    offset 8.  Sent back unchanged, the hello would pass the acceptance check
    exactly when the ciphertext length is a multiple of 256, because the
    check reads the low length byte as the status. *)
Theorem create_pq_handshake_decodes (ct : bytes) :
  Z.of_nat (length ct) <= 65535 ->
  exists msg lo hi,
    create_pq_handshake (Some ct) = Ret msg
    /\ length msg = (40 + length ct)%nat
    /\ msg !! 6%nat = Some lo /\ msg !! 7%nat = Some hi
    /\ Z_of_byte lo + 256 * Z_of_byte hi = Z.of_nat (length ct)
    /\ take (length ct) (drop 8 msg) = ct
    /\ drop (8 + length ct) msg = repeat x00 32
    /\ (response_accepted msg = Ret true
        <-> Z.of_nat (length ct) mod 256 = 0).
Proof.
  intros Hlen.
  destruct (create_pq_handshake_encoded ct Hlen) as (lo & hi & Hmsg & Hv).
  eexists _, lo, hi. split; [exact Hmsg|].
  split; [rewrite !length_app, repeat_length; simpl; lia|].
  split; [done|]. split; [done|]. split; [exact Hv|].
  split; [simpl; by rewrite drop_0, take_app_length|].
  split; [simpl; by rewrite drop_app_length|].
  rewrite response_accepted_true. unfold accepting. simpl.
  pose proof (Z_of_byte_range lo). pose proof (Z_of_byte_range hi).
  assert (Hlo : Z.of_nat (length ct) mod 256 = Z_of_byte lo).
  { rewrite <- Hv, (Z.mul_comm 256), Z.mod_add by lia.
    apply Z.mod_small. lia. }
  rewrite Hlo, Z_of_byte_zero. split.
  - by intros (_ & _ & [= ->]).
  - intros ->. split; [lia|done].
Qed.

Lemma create_pq_handshake_decodes_witness :
  Z.of_nat (length (repeat x00 1568)) <= 65535
  /\ exists msg lo hi,
       create_pq_handshake (Some (repeat x00 1568)) = Ret msg
       /\ length msg = (40 + length (repeat x00 1568))%nat
       /\ msg !! 6%nat = Some lo /\ msg !! 7%nat = Some hi
       /\ Z_of_byte lo + 256 * Z_of_byte hi
          = Z.of_nat (length (repeat x00 1568))
       /\ take (length (repeat x00 1568)) (drop 8 msg) = repeat x00 1568
       /\ drop (8 + length (repeat x00 1568)) msg = repeat x00 32
       /\ (response_accepted msg = Ret true
           <-> Z.of_nat (length (repeat x00 1568)) mod 256 = 0).
Proof.
  assert (Hlen : Z.of_nat (length (repeat x00 1568)) <= 65535)
    by (rewrite repeat_length; lia).
  split; [exact Hlen|].
  apply (create_pq_handshake_decodes (repeat x00 1568) Hlen).
Defined.
